(** * Hephaestus Forge: the audio core, embedded and checked against its specification

    The Go package [audio] is embedded part by part:
      - the parameter manager (ParameterManager, ParameterSmoother),
      - the oscillators (Oscillator, the noise generator),
      - the biquad filter (Filter),
      - the effects (Effect and its delay, distortion, chorus and
        bit-crusher loops),
      - the engine (AudioEngine.Start, Stop, IsRunning).

    Numbers.  A Go [float64] or [float32] is modelled by a real number and
    every arithmetic operation by the exact operation on reals, so the
    conversions between the two widths are the identity and no rounding,
    infinity or NaN occurs.  Every statement below is a statement about this
    exact-arithmetic reading of the code.  A Go [int] is modelled by [Z]
    (indices stay far below the 64-bit range), [%] by [Z.rem], and the
    64-bit state of the noise generator by [Z] with its wrap-around written
    out.  A run-time panic (index out of range, integer division by zero) is
    the result [None].

    Maps.  Go maps keyed by strings are [gmap string _].  Every key of
    [atomicParams] and of [smoothing] owns a cell of its own (the code
    allocates one per key and never shares it), so a map of values is a
    faithful store for them. *)

From Stdlib Require Import Reals Lra Lia ZArith List.
From stdpp Require Import gmap strings list fin_maps.

Local Open Scope R_scope.

(** ** Shared numeric helpers *)

Definition SampleRate : Z := 44100.
Definition FrameSize : Z := 512.
Definition Channels : Z := 2.

(** [int(x)] for a float [x]: truncation toward zero. *)
Definition trunc (x : R) : Z :=
  if Rle_dec 0 x then Int_part x else (- Int_part (- x))%Z.

(** [math.Floor] and [math.Ceil]. *)
Definition floorR (x : R) : R := IZR (Int_part x).
Definition ceilR (x : R) : R := IZR (- Int_part (- x)).

(** Reading a [map[string]float64] at a key that may be absent yields the
    zero value. *)
Definition readParam (m : gmap string R) (key : string) : R :=
  default 0 (m !! key).

(** Slice indexing and slice assignment by an [int]; out of range panics. *)
Definition sliceGet (l : list R) (i : Z) : option R :=
  if (0 <=? i)%Z then l !! Z.to_nat i else None.

Definition sliceSet (l : list R) (i : Z) (v : R) : option (list R) :=
  if ((0 <=? i)%Z && (i <? Z.of_nat (length l))%Z)%bool
  then Some (<[Z.to_nat i := v]> l) else None.

(** [a % b] on ints; a zero divisor panics. *)
Definition goRem (a b : Z) : option Z :=
  if (b =? 0)%Z then None else Some (Z.rem a b).

(** An impulse of [n] samples: one, then silence. *)
Definition impulse (n : nat) : list R :=
  match n with
  | O => []
  | S n' => 1 :: replicate n' 0
  end.

(** ** The parameter manager *)

Module Params.

Record ParameterSmoother := mkSmoother {
  current : R;
  target : R;
  rate : R;
  active : bool
}.

Record ParameterManager := mkPM {
  params : gmap string R;
  atomicParams : gmap string R;
  smoothing : gmap string ParameterSmoother
}.

Definition NewParameterManager : ParameterManager :=
  mkPM ∅ ∅ ∅.

Definition absFloat64 (x : R) : R :=
  if Rlt_dec x 0 then - x else x.

(** [Set] (a reserved word here, hence the underscore). *)
Definition Set_ (key : string) (value : R) (pm : ParameterManager)
  : ParameterManager :=
  mkPM (<[key := value]> (params pm))
       (match atomicParams pm !! key with
        | Some _ => <[key := value]> (atomicParams pm)
        | None => atomicParams pm
        end)
       (match smoothing pm !! key with
        | Some s =>
            <[key := mkSmoother (current s) value (rate s) true]> (smoothing pm)
        | None => smoothing pm
        end).

Definition Get (key : string) (pm : ParameterManager) : R * bool :=
  match params pm !! key with
  | Some v => (v, true)
  | None => (0, false)
  end.

Definition GetWithDefault (key : string) (defaultValue : R)
    (pm : ParameterManager) : R :=
  let '(val, exists_) := Get key pm in
  if exists_ then val else defaultValue.

(** One smoothing step on the smoother itself: the body of the [if] of
    [GetSmoothed]. *)
Definition smoothStep (s : ParameterSmoother) : ParameterSmoother :=
  let s1 := mkSmoother (current s + (target s - current s) * rate s)
                       (target s) (rate s) (active s) in
  if Rlt_dec (absFloat64 (target s1 - current s1)) (1 / 10000)
  then mkSmoother (target s1) (target s1) (rate s1) false
  else s1.

Definition GetSmoothed (key : string) (defaultValue : R)
    (pm : ParameterManager) : R * ParameterManager :=
  match smoothing pm !! key with
  | Some s =>
      if active s then
        let s' := smoothStep s in
        (current s',
         mkPM (params pm) (atomicParams pm) (<[key := s']> (smoothing pm)))
      else (GetWithDefault key defaultValue pm, pm)
  | None => (GetWithDefault key defaultValue pm, pm)
  end.

Definition RegisterAtomic (key : string) (initialValue : R)
    (pm : ParameterManager) : ParameterManager :=
  mkPM (<[key := initialValue]> (params pm))
       (<[key := initialValue]> (atomicParams pm))
       (smoothing pm).

Definition GetAtomic (key : string) (pm : ParameterManager) : R * bool :=
  match atomicParams pm !! key with
  | Some v => (v, true)
  | None => (0, false)
  end.

Definition EnableSmoothing (key : string) (rate_ : R)
    (pm : ParameterManager) : ParameterManager :=
  let currentValue := GetWithDefault key 0 pm in
  mkPM (params pm) (atomicParams pm)
       (<[key := mkSmoother currentValue currentValue rate_ false]>
          (smoothing pm)).

(** The body of the loop of [BatchSet], for one entry of [updates]. *)
Definition batchEntry (key : string) (value : R) (pm : ParameterManager)
  : ParameterManager :=
  mkPM (<[key := value]> (params pm))
       (match atomicParams pm !! key with
        | Some _ => <[key := value]> (atomicParams pm)
        | None => atomicParams pm
        end)
       (smoothing pm).

(** [for key, value := range updates]: the keys of a map are distinct, so
    the order of the iteration does not show in the result. *)
Definition BatchSet (updates : gmap string R) (pm : ParameterManager)
  : ParameterManager :=
  map_fold batchEntry pm updates.

Definition GetAll (pm : ParameterManager) : gmap string R :=
  params pm.

(** The calls a client of the store can make, and the store after one of
    them. *)
Inductive Op :=
| OpSet (key : string) (value : R)
| OpGet (key : string)
| OpGetWithDefault (key : string) (defaultValue : R)
| OpGetSmoothed (key : string) (defaultValue : R)
| OpRegisterAtomic (key : string) (initialValue : R)
| OpGetAtomic (key : string)
| OpEnableSmoothing (key : string) (rate_ : R)
| OpBatchSet (updates : gmap string R)
| OpGetAll.

Definition applyOp (op : Op) (pm : ParameterManager) : ParameterManager :=
  match op with
  | OpSet key value => Set_ key value pm
  | OpGetSmoothed key defaultValue => snd (GetSmoothed key defaultValue pm)
  | OpRegisterAtomic key initialValue => RegisterAtomic key initialValue pm
  | OpEnableSmoothing key rate_ => EnableSmoothing key rate_ pm
  | OpBatchSet updates => BatchSet updates pm
  | OpGet _ | OpGetWithDefault _ _ | OpGetAtomic _ | OpGetAll => pm
  end.

(** The store after [n] successive [GetSmoothed] calls on one key, and the
    value that call number [n + 1] returns. *)
Fixpoint afterCalls (n : nat) (key : string) (defaultValue : R)
    (pm : ParameterManager) : ParameterManager :=
  match n with
  | O => pm
  | S n' => afterCalls n' key defaultValue (GetSmoothed key defaultValue pm).2
  end.

Definition nthCall (n : nat) (key : string) (defaultValue : R)
    (pm : ParameterManager) : R :=
  (GetSmoothed key defaultValue (afterCalls n key defaultValue pm)).1.

(** What a [GetSmoothed] call does to the smoother of its key. *)
Definition stepSmoother (s : ParameterSmoother) : ParameterSmoother :=
  if active s then smoothStep s else s.

(** A number of calls that suffices from a distance [d] at rate [r]: the
    least integer above [d / (r * 1e-4)]. *)
Definition callBound (r d : R) : nat :=
  Z.to_nat (up (10000 * d / r)).

(** The shape of the smoother of a key between calls, for the rate [r]
    and the target [T]. *)
Definition settled (r T : R) (s : ParameterSmoother) : Prop :=
  target s = T ∧ rate s = r ∧ (active s = false -> current s = T).

(** The smoother after [n] calls, started active at [c0]. *)
Definition smootherAfter (r T c0 : R) (n : nat) : ParameterSmoother :=
  Nat.iter n stepSmoother (mkSmoother c0 T r true).

(** The words of the specification on the call count: a bound computed
    from the rate alone (the threshold is the constant of the code) within
    which some call returns exactly the target. *)
Definition convergesWithin (bound : R -> nat) : Prop :=
  ∀ (key : string) (r T d : R) (pm : ParameterManager),
    0 < r <= 1 ->
    ∃ n, (n < bound r)%nat ∧
         nthCall n key d (Set_ key T (EnableSmoothing key r pm)) = T.

(** A sequence of calls, applied in order. *)
Definition runOps (ops : list Op) (pm : ParameterManager) : ParameterManager :=
  foldl (fun acc op => applyOp op acc) pm ops.

(** Every lock-free slot holds the value of the primary record. *)
Definition slotsCoherent (pm : ParameterManager) : Prop :=
  ∀ key v, atomicParams pm !! key = Some v -> params pm !! key = Some v.

(** An inactive smoother rests on its target. *)
Definition smoothersAtRest (pm : ParameterManager) : Prop :=
  ∀ key s, smoothing pm !! key = Some s -> active s = false ->
           current s = target s.

End Params.

(** ** The oscillators *)

Module Oscillators.
Import Params.

Inductive OscillatorType :=
| OscSine | OscSaw | OscSquare | OscTriangle | OscNoise.

Record Oscillator := mkOsc {
  Type_ : OscillatorType;
  Frequency : R;
  Amplitude : R;
  Phase : R;
  phaseInc : R
}.

Definition NewOscillator (oscType : OscillatorType) (freq amp : R)
  : Oscillator :=
  mkOsc oscType freq amp 0 (2 * PI * freq / IZR SampleRate).

(** The package-level [randState] is a [uint64]; it is threaded
    explicitly.  Its initial value: *)
Definition randState0 : Z := 12345.

Definition randFloat64 (randState : Z) : R * Z :=
  let randState' :=
    ((randState * 6364136223846793005 + 1442695040888963407)
       mod 2 ^ 64)%Z in
  (IZR (Z.shiftr randState' 32) / IZR (Z.shiftl 1 32), randState').

(** The [switch o.Type] of the loop body: the raw sample and the new
    generator state. *)
Definition waveform (o : Oscillator) (randState : Z) : R * Z :=
  match Type_ o with
  | OscSine => (sin (Phase o), randState)
  | OscSaw => (2 * (Phase o / (2 * PI)) - 1, randState)
  | OscSquare =>
      (if Rlt_dec (Phase o) PI then 1 else -1, randState)
  | OscTriangle =>
      (if Rlt_dec (Phase o) PI
       then -1 + (2 * Phase o / PI)
       else 3 - (2 * Phase o / PI), randState)
  | OscNoise =>
      let '(r, randState') := randFloat64 randState in
      (r * 2 - 1, randState')
  end.

(** [o.Phase += o.phaseInc], then the conditional subtraction. *)
Definition advancePhase (o : Oscillator) : Oscillator :=
  let ph := Phase o + phaseInc o in
  let ph' := if Rge_dec ph (2 * PI) then ph - 2 * PI else ph in
  mkOsc (Type_ o) (Frequency o) (Amplitude o) ph' (phaseInc o).

(** One iteration of [for i := range buffer]. *)
Definition generateSample (o : Oscillator) (randState : Z)
  : Oscillator * R * Z :=
  let '(sample, randState') := waveform o randState in
  (advancePhase o, sample * Amplitude o, randState').

(** The loop: every slot of the buffer is overwritten, so only the
    length of the incoming buffer matters. *)
Fixpoint generateLoop (o : Oscillator) (randState : Z) (buffer : list R)
  : Oscillator * list R * Z :=
  match buffer with
  | [] => (o, [], randState)
  | _ :: rest =>
      let '(o1, out, rs1) := generateSample o randState in
      let '(o2, outs, rs2) := generateLoop o1 rs1 rest in
      (o2, out :: outs, rs2)
  end.

(** The frequency refresh at the head of [Generate]. *)
Definition refreshFrequency (o : Oscillator) (params : ParameterManager)
  : Oscillator :=
  let '(newFreq, exists_) := Get "osc1_frequency" params in
  if exists_
  then mkOsc (Type_ o) newFreq (Amplitude o) (Phase o)
             (2 * PI * newFreq / IZR SampleRate)
  else o.

Definition Generate (o : Oscillator) (buffer : list R)
    (params : ParameterManager) (randState : Z)
  : Oscillator * list R * Z :=
  generateLoop (refreshFrequency o params) randState buffer.

(** The canonical range of the phase accumulator. *)
Definition canonical (ph : R) : Prop := 0 <= ph < 2 * PI.

(** The increment after the refresh, for a stored frequency below the
    sample rate or, without one, an increment already in range. *)
Definition incrementInRange (o : Oscillator) (pm : ParameterManager)
  : Prop :=
  match params pm !! "osc1_frequency" with
  | Some v => 0 <= v < 44100
  | None => 0 <= phaseInc o < 2 * PI
  end.

(** An oscillator that carries the frequency [v] and its increment. *)
Definition tunedTo (v : R) (o : Oscillator) : Prop :=
  Frequency o = v ∧ phaseInc o = 2 * PI * v / IZR SampleRate.

End Oscillators.

(** ** The biquad filter *)

Module Filters.
Import Params.

Inductive FilterType :=
| FilterLowPass | FilterHighPass | FilterBandPass | FilterNotch.

Record Filter := mkFilter {
  Type_ : FilterType;
  Frequency : R;
  Resonance : R;
  a0 : R; a1 : R; a2 : R;
  b0 : R; b1 : R; b2 : R;
  x1 : R; x2 : R;
  y1 : R; y2 : R
}.

Definition setCoefficients (f : Filter) (a0' a1' a2' b0' b1' b2' : R)
  : Filter :=
  mkFilter (Type_ f) (Frequency f) (Resonance f)
           a0' a1' a2' b0' b1' b2' (x1 f) (x2 f) (y1 f) (y2 f).

Definition setHistory (f : Filter) (x1' x2' y1' y2' : R) : Filter :=
  mkFilter (Type_ f) (Frequency f) (Resonance f)
           (a0 f) (a1 f) (a2 f) (b0 f) (b1 f) (b2 f) x1' x2' y1' y2'.

Definition setFrequency (f : Filter) (freq : R) : Filter :=
  mkFilter (Type_ f) freq (Resonance f)
           (a0 f) (a1 f) (a2 f) (b0 f) (b1 f) (b2 f)
           (x1 f) (x2 f) (y1 f) (y2 f).

Definition setResonance (f : Filter) (res : R) : Filter :=
  mkFilter (Type_ f) (Frequency f) res
           (a0 f) (a1 f) (a2 f) (b0 f) (b1 f) (b2 f)
           (x1 f) (x2 f) (y1 f) (y2 f).

Definition omegaOf (f : Filter) : R :=
  2 * PI * Frequency f / IZR SampleRate.

(** The resonance after the two clamping [if]s. *)
Definition clampQ (q : R) : R :=
  let q1 := if Rlt_dec q (1 / 10) then 1 / 10 else q in
  if Rgt_dec q1 10 then 10 else q1.

Definition alphaOf (f : Filter) : R :=
  sin (omegaOf f) / (2 * clampQ (Resonance f)).

(** The [switch f.Type]: the six coefficients before normalisation. *)
Definition rawCoefficients (f : Filter) : Filter :=
  let cos_ := cos (omegaOf f) in
  let alpha := alphaOf f in
  match Type_ f with
  | FilterLowPass =>
      setCoefficients f (1 + alpha) (-2 * cos_) (1 - alpha)
                      ((1 - cos_) / 2) (1 - cos_) ((1 - cos_) / 2)
  | FilterHighPass =>
      setCoefficients f (1 + alpha) (-2 * cos_) (1 - alpha)
                      ((1 + cos_) / 2) (- (1 + cos_)) ((1 + cos_) / 2)
  | FilterBandPass =>
      setCoefficients f (1 + alpha) (-2 * cos_) (1 - alpha)
                      alpha 0 (- alpha)
  | FilterNotch =>
      setCoefficients f (1 + alpha) (-2 * cos_) (1 - alpha)
                      1 (-2 * cos_) 1
  end.

(** The five [/=] assignments: [f.a0] is the divisor and is not itself
    assigned. *)
Definition normalize (f : Filter) : Filter :=
  setCoefficients f (a0 f) (a1 f / a0 f) (a2 f / a0 f)
                  (b0 f / a0 f) (b1 f / a0 f) (b2 f / a0 f).

Definition updateCoefficients (f : Filter) : Filter :=
  normalize (rawCoefficients f).

Definition NewLowPassFilter (freq resonance : R) : Filter :=
  updateCoefficients
    (mkFilter FilterLowPass freq resonance 0 0 0 0 0 0 0 0 0 0).

Definition NewHighPassFilter (freq resonance : R) : Filter :=
  updateCoefficients
    (mkFilter FilterHighPass freq resonance 0 0 0 0 0 0 0 0 0 0).

(** The difference equation of the loop body. *)
Definition biquad (f : Filter) (x0 : R) : R :=
  b0 f * x0 + b1 f * x1 f + b2 f * x2 f - a1 f * y1 f - a2 f * y2 f.

(** The [if y0 > 1.0 ... else if y0 < -1.0 ...] of the loop body. *)
Definition clip (y0 : R) : R :=
  if Rgt_dec y0 1 then 1 else if Rlt_dec y0 (-1) then -1 else y0.

(** One iteration of [for i := range buffer]: the history is updated
    from [y0] first, the clip comes after and only reaches the buffer. *)
Definition processSample (f : Filter) (x0 : R) : Filter * R :=
  let y0 := biquad f x0 in
  let f' := setHistory f x0 (x1 f) y0 (y1 f) in
  (f', clip y0).

Fixpoint processLoop (f : Filter) (buffer : list R) : Filter * list R :=
  match buffer with
  | [] => (f, [])
  | x0 :: rest =>
      let '(f1, out) := processSample f x0 in
      let '(f2, outs) := processLoop f1 rest in
      (f2, out :: outs)
  end.

(** The two parameter refreshes at the head of [Process]. *)
Definition refreshParameters (f : Filter) (params : ParameterManager)
  : Filter :=
  let f1 :=
    let '(newFreq, exists_) := Get "filter_frequency" params in
    if exists_ then updateCoefficients (setFrequency f newFreq) else f in
  let '(newRes, exists_) := Get "filter_resonance" params in
  if exists_ then updateCoefficients (setResonance f1 newRes) else f1.

Definition Process (f : Filter) (buffer : list R)
    (params : ParameterManager) : Filter * list R :=
  processLoop (refreshParameters f params) buffer.

Definition Reset (f : Filter) : Filter := setHistory f 0 0 0 0.

(** The quadratic form that measures the output history of the
    recursion [y = - a1 * y1 - a2 * y2]. *)
Definition energy (a1 a2 u v : R) : R :=
  (1 - a2 * a2) * (u * u + v * v) + 2 * a1 * (1 - a2) * u * v.

(** The stability triangle of a second-order recursion. *)
Definition stable (a1 a2 : R) : Prop :=
  -1 < a2 < 1 ∧ Rabs a1 < 1 + a2.

End Filters.

(** ** The effects *)

Module Effects.
Import Params.

Inductive EffectType :=
| EffectDelay | EffectReverb | EffectDistortion | EffectChorus
| EffectBitCrusher.

Record Effect := mkEffect {
  Type_ : EffectType;
  Mix : R;
  Parameters : gmap string R;
  delayLine : list R;
  delayIndex : Z;
  lfoPhase : R;
  sampleHold : R;
  holdCount : Z
}.

Definition setDelayState (e : Effect) (line : list R) (idx : Z) : Effect :=
  mkEffect (Type_ e) (Mix e) (Parameters e) line idx
           (lfoPhase e) (sampleHold e) (holdCount e).

Definition setLfoPhase (e : Effect) (ph : R) : Effect :=
  mkEffect (Type_ e) (Mix e) (Parameters e) (delayLine e) (delayIndex e)
           ph (sampleHold e) (holdCount e).

Definition setHold (e : Effect) (held : R) (count : Z) : Effect :=
  mkEffect (Type_ e) (Mix e) (Parameters e) (delayLine e) (delayIndex e)
           (lfoPhase e) held count.

Definition setParameter (e : Effect) (key : string) (v : R) : Effect :=
  mkEffect (Type_ e) (Mix e) (<[key := v]> (Parameters e)) (delayLine e)
           (delayIndex e) (lfoPhase e) (sampleHold e) (holdCount e).

Definition setMix (e : Effect) (mix : R) : Effect :=
  mkEffect (Type_ e) mix (Parameters e) (delayLine e)
           (delayIndex e) (lfoPhase e) (sampleHold e) (holdCount e).

Definition NewEffect (effectType : EffectType) : Effect :=
  let e := mkEffect effectType (1 / 2) ∅ [] 0 0 0 0 in
  match effectType with
  | EffectDelay =>
      setParameter
        (setParameter
           (setDelayState e (replicate (Z.to_nat SampleRate) 0) 0)
           "time" (1 / 4))
        "feedback" (3 / 10)
  | EffectDistortion =>
      setParameter (setParameter e "drive" 5) "level" (7 / 10)
  | EffectChorus =>
      setParameter
        (setParameter
           (setParameter
              (setDelayState e (replicate (Z.to_nat (Z.quot SampleRate 10)) 0) 0)
              "rate" (1 / 2))
           "depth" (3 / 10))
        "delay" (2 / 100)
  | EffectBitCrusher =>
      setParameter (setParameter e "bits" 8) "sampleRate" (1 / 2)
  | EffectReverb => e
  end.

Definition len (l : list R) : Z := Z.of_nat (length l).

(** The dry/wet blend every loop ends with. *)
Definition blend (e : Effect) (dry wet : R) : R :=
  dry * (1 - Mix e) + wet * Mix e.

(** *** Delay *)

(** [delaySamples] after the clamp at the head of [processDelay]. *)
Definition delaySamplesOf (e : Effect) : Z :=
  let delaySamples := trunc (readParam (Parameters e) "time" * IZR SampleRate) in
  if (delaySamples >=? len (delayLine e))%Z
  then (len (delayLine e) - 1)%Z else delaySamples.

(** One iteration of the loop of [processDelay] on the sample [x]. *)
Definition delaySample (e : Effect) (delaySamples : Z) (feedback : R) (x : R)
  : option (Effect * R) :=
  readIndex ← goRem (delayIndex e - delaySamples + len (delayLine e))
                    (len (delayLine e));
  delayed ← sliceGet (delayLine e) readIndex;
  let wet := delayed in
  let dry := x in
  line' ← sliceSet (delayLine e) (delayIndex e) (x + delayed * feedback);
  idx' ← goRem (delayIndex e + 1) (len (delayLine e));
  Some (setDelayState e line' idx', blend e dry wet).

Fixpoint delayLoop (e : Effect) (delaySamples : Z) (feedback : R)
    (buffer : list R) : option (Effect * list R) :=
  match buffer with
  | [] => Some (e, [])
  | x :: rest =>
      '(e1, out) ← delaySample e delaySamples feedback x;
      '(e2, outs) ← delayLoop e1 delaySamples feedback rest;
      Some (e2, out :: outs)
  end.

Definition processDelay (e : Effect) (buffer : list R)
  : option (Effect * list R) :=
  delayLoop e (delaySamplesOf e) (readParam (Parameters e) "feedback") buffer.

(** *** Distortion *)

Definition distortionSample (e : Effect) (drive level : R) (x : R) : R :=
  let sample := tanh (x * drive) in
  blend e x (sample * level).

Definition processDistortion (e : Effect) (buffer : list R)
  : option (Effect * list R) :=
  Some (e, map (distortionSample e (readParam (Parameters e) "drive")
                                 (readParam (Parameters e) "level")) buffer).

(** *** Chorus *)

Definition lfoIncrementOf (e : Effect) : R :=
  2 * PI * readParam (Parameters e) "rate" / IZR SampleRate.

(** The LFO update at the head of the loop body: the LFO value and the
    effect with its phase advanced. *)
Definition lfoStep (e : Effect) : R * Effect :=
  let lfo := sin (lfoPhase e) * readParam (Parameters e) "depth" in
  let ph := lfoPhase e + lfoIncrementOf e in
  let ph' := if Rge_dec ph (2 * PI) then ph - 2 * PI else ph in
  (lfo, setLfoPhase e ph').

(** [delaySamples] of the loop body for a given LFO value. *)
Definition modulatedDelay (e : Effect) (lfo : R) : R :=
  let baseDelay := readParam (Parameters e) "delay" in
  (baseDelay + baseDelay * lfo) * IZR SampleRate.

(** The interpolated read of the loop body, on a given delay line. *)
Definition chorusRead (line : list R) (idx : Z) (delaySamples : R)
  : option R :=
  let delaySamplesInt := trunc delaySamples in
  let fraction := delaySamples - IZR delaySamplesInt in
  readIndex1 ← goRem (idx - delaySamplesInt + len line) (len line);
  readIndex2 ← goRem (readIndex1 - 1 + len line) (len line);
  sample1 ← sliceGet line readIndex1;
  sample2 ← sliceGet line readIndex2;
  Some (sample1 * (1 - fraction) + sample2 * fraction).

(** One iteration of the loop of [processChorus] on the sample [x]. *)
Definition chorusSample (e : Effect) (x : R) : option (Effect * R) :=
  let '(lfo, e1) := lfoStep e in
  let delaySamples := modulatedDelay e1 lfo in
  if (trunc delaySamples <? len (delayLine e1) - 1)%Z then
    delayed ← chorusRead (delayLine e1) (delayIndex e1) delaySamples;
    line' ← sliceSet (delayLine e1) (delayIndex e1) x;
    idx' ← goRem (delayIndex e1 + 1) (len (delayLine e1));
    Some (setDelayState e1 line' idx', blend e1 x delayed)
  else Some (e1, x).

Fixpoint chorusLoop (e : Effect) (buffer : list R)
  : option (Effect * list R) :=
  match buffer with
  | [] => Some (e, [])
  | x :: rest =>
      '(e1, out) ← chorusSample e x;
      '(e2, outs) ← chorusLoop e1 rest;
      Some (e2, out :: outs)
  end.

Definition processChorus (e : Effect) (buffer : list R)
  : option (Effect * list R) :=
  chorusLoop e buffer.

(** *** Bit crusher *)

Definition quantize (stepSize : R) (sample : R) : R :=
  if Rgt_dec sample 0
  then floorR (sample / stepSize) * stepSize
  else ceilR (sample / stepSize) * stepSize.

Definition bitCrusherSample (e : Effect) (stepSize : R) (holdPeriod : Z)
    (x : R) : Effect * R :=
  let e1 := if (holdCount e =? 0)%Z then setHold e x holdPeriod else e in
  let e2 := setHold e1 (sampleHold e1) (holdCount e1 - 1) in
  (e2, blend e2 x (quantize stepSize (sampleHold e2))).

Fixpoint bitCrusherLoop (e : Effect) (stepSize : R) (holdPeriod : Z)
    (buffer : list R) : Effect * list R :=
  match buffer with
  | [] => (e, [])
  | x :: rest =>
      let '(e1, out) := bitCrusherSample e stepSize holdPeriod x in
      let '(e2, outs) := bitCrusherLoop e1 stepSize holdPeriod rest in
      (e2, out :: outs)
  end.

Definition processBitCrusher (e : Effect) (buffer : list R)
  : option (Effect * list R) :=
  let levels := Rpower 2 (readParam (Parameters e) "bits") in
  let stepSize := 2 / levels in
  let holdPeriod := trunc (1 / readParam (Parameters e) "sampleRate") in
  Some (bitCrusherLoop e stepSize holdPeriod buffer).

(** *** Dispatch *)

(** [Process]: the [switch] has no case for [EffectReverb]. *)
Definition Process (e : Effect) (buffer : list R) (params : ParameterManager)
  : option (Effect * list R) :=
  match Type_ e with
  | EffectDelay => processDelay e buffer
  | EffectDistortion => processDistortion e buffer
  | EffectChorus => processChorus e buffer
  | EffectBitCrusher => processBitCrusher e buffer
  | EffectReverb => Some (e, buffer)
  end.

Definition Reset (e : Effect) : Effect :=
  mkEffect (Type_ e) (Mix e) (Parameters e)
           (replicate (length (delayLine e)) 0) 0 0 0 0.

(** The delay line read in write order: the slot about to be overwritten
    first, the slot written last at the end. *)
Definition view (line : list R) (idx : nat) : list R :=
  drop idx line ++ take idx line.

(** The response to a unit impulse of a delay of [D] samples with feedback
    [f] at full wet mix: what is written to the line at sample [m], and
    what leaves the effect at sample [m]. *)
Definition written (D : nat) (f : R) (m : nat) : R :=
  if (m mod D =? 0)%nat then f ^ (m / D) else 0.

Definition echo (D : nat) (f : R) (m : nat) : R :=
  if ((D <=? m)%nat && (m mod D =? 0)%nat)%bool
  then f ^ (m / D - 1) else 0.

(** The amplitude the specification gives to the echo at lag [D * k]. *)
Definition claimedEcho (f : R) (k : nat) : R := f ^ k.

(** What the loops of the two delay-line effects rely on: a line that is
    not empty and a write index inside it.  [NewEffect] establishes
    it. *)
Definition indexInside (e : Effect) : Prop :=
  (0 <= delayIndex e < len (delayLine e))%Z.

Definition wellFormed (e : Effect) : Prop :=
  match Type_ e with
  | EffectDelay | EffectChorus => indexInside e
  | _ => True
  end.

(** The canonical range of the LFO phase. *)
Definition lfoCanonical (e : Effect) : Prop := 0 <= lfoPhase e < 2 * PI.

(** What processing never changes of an effect: its type, mix and
    parameters and the length of its line. *)
Definition sameSettings (e e' : Effect) : Prop :=
  Type_ e' = Type_ e ∧ Mix e' = Mix e ∧ Parameters e' = Parameters e ∧
  length (delayLine e') = length (delayLine e).

End Effects.

(** ** The engine *)

Module Engine.
Import Params.

(** The audio driver (PortAudio) is outside the repository.  What [Start]
    and [Stop] can observe and change of it is kept in [Driver]: how many
    successful [Initialize] calls still await their [Terminate], which
    stream handles are open, and which of them are started.  Whether a
    driver call succeeds is not the engine's choice: a [Script] gives the
    error, if any, each of the three calls of one [Start] reports. *)
Record Driver := mkDriver {
  initCount : nat;
  nextHandle : nat;
  openStreams : list nat;
  startedStreams : list nat
}.

Record Script := mkScript {
  initErr : option string;
  openErr : option string;
  startErr : option string
}.

Definition paInitialize (w : Driver) : Driver :=
  mkDriver (S (initCount w)) (nextHandle w) (openStreams w) (startedStreams w).

(** [Terminate] gives back one initialisation; the driver closes every
    stream still open when the last one is given back. *)
Definition paTerminate (w : Driver) : Driver :=
  match initCount w with
  | O => w
  | S O => mkDriver O (nextHandle w) [] []
  | S n => mkDriver n (nextHandle w) (openStreams w) (startedStreams w)
  end.

Definition paOpenDefaultStream (w : Driver) : nat * Driver :=
  (nextHandle w,
   mkDriver (initCount w) (S (nextHandle w))
            (nextHandle w :: openStreams w) (startedStreams w)).

Definition streamStart (h : nat) (w : Driver) : Driver :=
  mkDriver (initCount w) (nextHandle w) (openStreams w)
           (h :: startedStreams w).

Definition removeHandle (h : nat) (l : list nat) : list nat :=
  filter (fun h' => h' ≠ h) l.

Definition streamStop (h : nat) (w : Driver) : Driver :=
  mkDriver (initCount w) (nextHandle w) (openStreams w)
           (removeHandle h (startedStreams w)).

Definition streamClose (h : nat) (w : Driver) : Driver :=
  mkDriver (initCount w) (nextHandle w) (removeHandle h (openStreams w))
           (removeHandle h (startedStreams w)).

Record AudioEngine := mkEngine {
  stream : option nat;
  isRunning : Z;
  oscillators : list Oscillators.Oscillator;
  filters : list Filters.Filter;
  effects : list Effects.Effect;
  params : ParameterManager
}.

Definition setStream (ae : AudioEngine) (s : option nat) : AudioEngine :=
  mkEngine s (isRunning ae) (oscillators ae) (filters ae) (effects ae)
           (params ae).

Definition storeIsRunning (ae : AudioEngine) (v : Z) : AudioEngine :=
  mkEngine (stream ae) v (oscillators ae) (filters ae) (effects ae)
           (params ae).

Definition NewAudioEngine : AudioEngine :=
  mkEngine None 0
           [Oscillators.NewOscillator Oscillators.OscSine 440 (3 / 10)]
           [Filters.NewLowPassFilter 1000 (7 / 10)]
           []
           NewParameterManager.

Definition IsRunning (ae : AudioEngine) : bool :=
  negb (isRunning ae =? 0)%Z.

(** [Start]: the returned error ([None] is [nil]), the engine and the
    driver afterwards. *)
Definition Start (ae : AudioEngine) (w : Driver) (sc : Script)
  : option string * AudioEngine * Driver :=
  match initErr sc with
  | Some err =>
      (Some ("failed to initialize PortAudio: " +:+ err), ae, w)
  | None =>
      let w1 := paInitialize w in
      match openErr sc with
      | Some err =>
          (Some ("failed to open audio stream: " +:+ err), ae,
           paTerminate w1)
      | None =>
          let '(h, w2) := paOpenDefaultStream w1 in
          let ae1 := storeIsRunning (setStream ae (Some h)) 1 in
          match startErr sc with
          | Some err =>
              (Some ("failed to start audio stream: " +:+ err), ae1, w2)
          | None => (None, ae1, streamStart h w2)
          end
      end
  end.

Definition Stop (ae : AudioEngine) (w : Driver) : AudioEngine * Driver :=
  let ae1 := storeIsRunning ae 0 in
  let w1 :=
    match stream ae1 with
    | Some h => streamClose h (streamStop h w)
    | None => w
    end in
  (ae1, paTerminate w1).

(** The driver before any call, and the script on which nothing fails. *)
Definition idleDriver : Driver := mkDriver 0 0 [] [].
Definition allSucceed : Script := mkScript None None None.

(** Nothing that [Start] acquired is still held: the driver has as many
    pending initialisations and the same open streams as before. *)
Definition released (before after : Driver) : Prop :=
  initCount after = initCount before ∧
  openStreams after = openStreams before.

(** A driver on which no initialisation is pending has no stream open. *)
Definition quiescent (w : Driver) : Prop :=
  initCount w = O -> openStreams w = [].

(** The words of the specification for a second [Start]: an error is
    reported and the driver has no more streams open than before. *)
Definition reportsAlreadyRunning (ae : AudioEngine) (w : Driver)
    (sc : Script) : Prop :=
  let '(err, _, w') := Start ae w sc in
  err ≠ None ∧ openStreams w' = openStreams w.

(** The chains hold pointers; every entry is taken to be an object of its
    own (as [NewAudioEngine] and the [Add] calls on fresh objects give),
    so a list of values is the chain. *)
Definition AddOscillator (ae : AudioEngine) (osc : Oscillators.Oscillator)
  : AudioEngine :=
  mkEngine (stream ae) (isRunning ae) (oscillators ae ++ [osc])
           (filters ae) (effects ae) (params ae).

Definition AddFilter (ae : AudioEngine) (filter : Filters.Filter)
  : AudioEngine :=
  mkEngine (stream ae) (isRunning ae) (oscillators ae)
           (filters ae ++ [filter]) (effects ae) (params ae).

Definition AddEffect (ae : AudioEngine) (effect : Effects.Effect)
  : AudioEngine :=
  mkEngine (stream ae) (isRunning ae) (oscillators ae) (filters ae)
           (effects ae ++ [effect]) (params ae).

Definition setChains (ae : AudioEngine)
    (oscs : list Oscillators.Oscillator) (fs : list Filters.Filter)
    (es : list Effects.Effect) : AudioEngine :=
  mkEngine (stream ae) (isRunning ae) oscs fs es (params ae).

(** The oscillator loop of [processAudio]: each oscillator generates into
    a fresh buffer of the frame count, which is added to the mix. *)
Fixpoint generateAll (oscs : list Oscillators.Oscillator)
    (pm : ParameterManager) (randState : Z) (mixBuffer : list R)
  : list Oscillators.Oscillator * list R * Z :=
  match oscs with
  | [] => ([], mixBuffer, randState)
  | osc :: rest =>
      let '(osc', tempBuffer, rs1) :=
        Oscillators.Generate osc (replicate (length mixBuffer) 0) pm
                             randState in
      let '(rest', mix', rs2) :=
        generateAll rest pm rs1 (zip_with Rplus mixBuffer tempBuffer) in
      (osc' :: rest', mix', rs2)
  end.

Fixpoint filterAll (fs : list Filters.Filter) (pm : ParameterManager)
    (mixBuffer : list R) : list Filters.Filter * list R :=
  match fs with
  | [] => ([], mixBuffer)
  | filter :: rest =>
      let '(filter', mix1) := Filters.Process filter mixBuffer pm in
      let '(rest', mix2) := filterAll rest pm mix1 in
      (filter' :: rest', mix2)
  end.

Fixpoint effectAll (es : list Effects.Effect) (pm : ParameterManager)
    (mixBuffer : list R) : option (list Effects.Effect * list R) :=
  match es with
  | [] => Some ([], mixBuffer)
  | effect :: rest =>
      '(effect', mix1) ← Effects.Process effect mixBuffer pm;
      '(rest', mix2) ← effectAll rest pm mix1;
      Some (effect' :: rest', mix2)
  end.

(** [copy(dst, src)]: as many elements as the shorter of the two holds. *)
Definition copySlice (dst src : list R) : list R :=
  take (length dst) src ++ drop (length src) dst.

(** [processAudio]: the engine, the channel buffers and the state of the
    noise generator afterwards.  [out[0]] on no channel at all panics. *)
Definition processAudio (ae : AudioEngine) (out : list (list R))
    (randState : Z) : option (AudioEngine * list (list R) * Z) :=
  if negb (IsRunning ae)
  then Some (ae, map (fun ch => replicate (length ch) 0) out, randState)
  else
    match out with
    | [] => None
    | ch0 :: _ =>
        let frameCount := length ch0 in
        let '(oscs', mix1, rs') :=
          generateAll (oscillators ae) (params ae) randState
                      (replicate frameCount 0) in
        let '(fs', mix2) := filterAll (filters ae) (params ae) mix1 in
        '(es', mix3) ← effectAll (effects ae) (params ae) mix2;
        Some (setChains ae oscs' fs' es',
              map (fun ch => copySlice ch mix3) out, rs')
    end.

End Engine.

(** * Properties *)

(** ** The parameter store: [BatchSet] and [Set] *)

Section BatchSetFacts.
Import Params.

Lemma BatchSet_smoothing (updates : gmap string R) (pm : ParameterManager) :
  smoothing (BatchSet updates pm) = smoothing pm.
Proof.
  unfold BatchSet.
  apply (map_fold_weak_ind (fun r _ => smoothing r = smoothing pm)); auto.
Qed.

Lemma BatchSet_params (updates : gmap string R) (pm : ParameterManager) :
  params (BatchSet updates pm) = updates ∪ params pm.
Proof.
  unfold BatchSet.
  apply (map_fold_weak_ind (fun r m => params r = m ∪ params pm)).
  - by rewrite (left_id_L ∅ (∪)).
  - intros i x m r _ IH. simpl. rewrite IH. by rewrite insert_union_l.
Qed.

Lemma BatchSet_atomicParams (updates : gmap string R) (pm : ParameterManager)
    (key : string) :
  atomicParams (BatchSet updates pm) !! key =
  match atomicParams pm !! key with
  | Some old => Some (default old (updates !! key))
  | None => None
  end.
Proof.
  unfold BatchSet.
  apply (map_fold_weak_ind
           (fun r m => atomicParams r !! key =
                       match atomicParams pm !! key with
                       | Some old => Some (default old (m !! key))
                       | None => None
                       end)).
  - rewrite lookup_empty. simpl. by destruct (atomicParams pm !! key).
  - intros i x m r Hi IH. simpl.
    destruct (decide (i = key)) as [->|Hne].
    + rewrite lookup_insert_eq. simpl.
      destruct (atomicParams r !! key) as [a|] eqn:Hr.
      * rewrite lookup_insert_eq.
        destruct (atomicParams pm !! key); [done | congruence].
      * rewrite Hr. destruct (atomicParams pm !! key); congruence.
    + rewrite lookup_insert_ne by done.
      destruct (atomicParams r !! i); [rewrite lookup_insert_ne by done|];
        exact IH.
Qed.

End BatchSetFacts.

Section SmootherFrame.
Import Params.

Lemma Set_smoother (key : string) (value : R) (pm : ParameterManager)
    (s : ParameterSmoother) :
  smoothing pm !! key = Some s ->
  smoothing (Set_ key value pm) !! key =
  Some (mkSmoother (current s) value (rate s) true).
Proof.
  intros Hs. unfold Set_. simpl. rewrite Hs. by rewrite lookup_insert_eq.
Qed.

Lemma Set_smoother_other (key key' : string) (value : R)
    (pm : ParameterManager) :
  key' ≠ key ->
  smoothing (Set_ key' value pm) !! key = smoothing pm !! key.
Proof.
  intros Hne. unfold Set_. simpl.
  destruct (smoothing pm !! key'); [by rewrite lookup_insert_ne | done].
Qed.

Lemma smoothStep_target (s : ParameterSmoother) :
  target (smoothStep s) = target s.
Proof. unfold smoothStep. simpl. by destruct (Rlt_dec _ _). Qed.

(** An operation after which the smoother of [key] has a new target and
    is active is a [Set] of that key. *)
Lemma retarget_is_Set (op : Op) (pm : ParameterManager) (key : string)
    (s s' : ParameterSmoother) :
  smoothing pm !! key = Some s ->
  smoothing (applyOp op pm) !! key = Some s' ->
  target s' ≠ target s -> active s' = true ->
  ∃ value, op = OpSet key value.
Proof.
  intros Hs Hs' Ht Ha.
  destruct op as [k v|k|k d|k d|k v|k|k r|u|]; cbn [applyOp] in Hs';
    try (cbn in Hs'; rewrite Hs in Hs'; congruence).
  - destruct (decide (k = key)) as [->|Hne]; [by eexists|].
    rewrite Set_smoother_other in Hs' by done. congruence.
  - unfold GetSmoothed in Hs'.
    destruct (smoothing pm !! k) as [sk|] eqn:Hk; simpl in Hs';
      [destruct (active sk); simpl in Hs'|]; try congruence.
    destruct (decide (k = key)) as [->|Hne].
    + rewrite lookup_insert_eq in Hs'. injection Hs' as <-.
      rewrite smoothStep_target in Ht. congruence.
    + rewrite lookup_insert_ne in Hs' by done. congruence.
  - unfold EnableSmoothing in Hs'. simpl in Hs'.
    destruct (decide (k = key)) as [->|Hne].
    + rewrite lookup_insert_eq in Hs'. injection Hs' as <-. discriminate.
    + rewrite lookup_insert_ne in Hs' by done. congruence.
  - rewrite BatchSet_smoothing in Hs'. congruence.
Qed.

(** C10.  For a key that has a Smoother, a [BatchSet] whose updates
    contain the key writes the new value to the primary record and to the
    key's lock-free slot when one is registered, and leaves the Smoother
    (target, current, rate and active) as it was.  [Set] on the same key
    does set the Smoother's target to the value and marks it active, and
    among all calls of the store only a [Set] of that key leaves the
    Smoother with a new target and active. *)
Theorem BatchSet_leaves_smoother (updates : gmap string R)
    (pm : ParameterManager) (key : string) (s : ParameterSmoother)
    (value : R) :
  smoothing pm !! key = Some s ->
  updates !! key = Some value ->
  params (BatchSet updates pm) !! key = Some value ∧
  (is_Some (atomicParams pm !! key) ->
   atomicParams (BatchSet updates pm) !! key = Some value) ∧
  smoothing (BatchSet updates pm) !! key = Some s ∧
  smoothing (Set_ key value pm) !! key =
    Some (mkSmoother (current s) value (rate s) true) ∧
  (∀ op s', smoothing (applyOp op pm) !! key = Some s' ->
            target s' ≠ target s -> active s' = true ->
            ∃ value', op = OpSet key value').
Proof.
  intros Hs Hu. repeat split.
  - rewrite BatchSet_params. by apply lookup_union_Some_l.
  - intros [old Hold]. rewrite BatchSet_atomicParams, Hold, Hu. done.
  - by rewrite BatchSet_smoothing.
  - by apply Set_smoother.
  - intros op s'. by apply retarget_is_Set.
Qed.

Lemma BatchSet_leaves_smoother_witness :
  let pm := EnableSmoothing "cutoff" (1 / 10)
              (RegisterAtomic "cutoff" 100 NewParameterManager) in
  let s := mkSmoother 100 100 (1 / 10) false in
  params (BatchSet {["cutoff" := 200]} pm) !! "cutoff" = Some 200 ∧
  atomicParams (BatchSet {["cutoff" := 200]} pm) !! "cutoff" = Some 200 ∧
  smoothing (BatchSet {["cutoff" := 200]} pm) !! "cutoff" = Some s ∧
  smoothing (Set_ "cutoff" 200 pm) !! "cutoff" =
    Some (mkSmoother 100 200 (1 / 10) true).
Proof.
  intros pm s.
  assert (Hs : smoothing pm !! "cutoff" = Some s) by reflexivity.
  assert (Hu : ({["cutoff" := 200]} : gmap string R) !! "cutoff" = Some 200)
    by reflexivity.
  destruct (BatchSet_leaves_smoother _ pm "cutoff" s 200 Hs Hu)
    as (Hp & Ha & Hsm & Hset & _).
  split; [exact Hp|]. split; [apply Ha; eexists; reflexivity|].
  split; [exact Hsm | exact Hset].
Defined.

End SmootherFrame.

(** ** The effect dispatch *)

Section ReverbFacts.
Import Effects.

(** C9.  [EffectReverb] is a declared variant for which the [switch] of
    [Process] has no case: on such an effect [Process] returns normally
    with the buffer and every field of the effect as they were. *)
Theorem Process_reverb_identity (e : Effect) (buffer : list R)
    (params : Params.ParameterManager) :
  Type_ e = EffectReverb ->
  Process e buffer params = Some (e, buffer).
Proof. intros Ht. unfold Process. by rewrite Ht. Qed.

Lemma Process_reverb_identity_witness :
  Process (NewEffect EffectReverb) [1; -1 / 2; 0] Params.NewParameterManager =
  Some (NewEffect EffectReverb, [1; -1 / 2; 0]).
Proof. apply Process_reverb_identity. reflexivity. Defined.

End ReverbFacts.

(** ** The engine: [Start] *)

Section StartFacts.
Import Engine.

(** The first failing step, driver initialisation: nothing was acquired,
    nothing changes. *)
Lemma Start_initialize_failure (ae : AudioEngine) (w : Driver) (sc : Script)
    (err : string) :
  initErr sc = Some err ->
  Start ae w sc = (Some ("failed to initialize PortAudio: " +:+ err), ae, w).
Proof. intros H. unfold Start. by rewrite H. Qed.

(** The second failing step, opening the stream: the initialisation is
    given back and the engine is untouched. *)
Lemma Start_open_failure (ae : AudioEngine) (w : Driver) (sc : Script)
    (err : string) :
  initErr sc = None -> openErr sc = Some err -> quiescent w ->
  ∃ w', Start ae w sc =
          (Some ("failed to open audio stream: " +:+ err), ae, w') ∧
        released w w'.
Proof.
  intros Hi Ho Hq. unfold Start. rewrite Hi, Ho. eexists. split; [done|].
  unfold released, paTerminate, paInitialize. simpl.
  destruct (initCount w) eqn:Hc; simpl; [|done].
  split; [done|]. symmetry. by apply Hq.
Qed.

(** C1, at the third failing step.  On a fresh engine and an idle driver,
    when initialisation and opening succeed and starting the stream fails,
    [Start] returns the error of that step, but the flag was stored
    before the attempt and no release follows it: [IsRunning] answers
    true, the stream stays open and the initialisation stays pending. *)
Theorem Start_stream_start_failure :
  let '(err, ae, w) :=
    Start NewAudioEngine idleDriver
          (mkScript None None (Some "device unavailable")) in
  err = Some "failed to start audio stream: device unavailable" ∧
  IsRunning ae = true ∧
  stream ae = Some O ∧
  openStreams w = [O] ∧
  initCount w = 1%nat ∧
  ¬ released idleDriver w.
Proof.
  simpl. repeat split; try reflexivity.
  unfold released. simpl. intros [H _]. discriminate.
Qed.

(** [Start] never reads the flag: what it returns and what it does to
    the driver are the same whatever [isRunning] holds. *)
Lemma Start_ignores_flag (ae : AudioEngine) (w : Driver) (sc : Script)
    (v : Z) :
  let '(err, ae', w') := Start ae w sc in
  let '(err2, ae2, w2) := Start (storeIsRunning ae v) w sc in
  err2 = err ∧ w2 = w'.
Proof.
  unfold Start. destruct (initErr sc); [done|].
  destruct (openErr sc); [done|]. simpl. by destruct (startErr sc).
Qed.

(** C2, refuted as stated.  The engine left running by a successful
    [Start] is started again on a driver that accepts every call: no
    error comes back and a second stream is open. *)
Lemma Start_twice_opens_second_stream :
  let '(_, ae1, w1) := Start NewAudioEngine idleDriver allSucceed in
  IsRunning ae1 = true ∧
  ¬ reportsAlreadyRunning ae1 w1 allSucceed ∧
  let '(err, ae2, w2) := Start ae1 w1 allSucceed in
  err = None ∧ openStreams w2 = [1%nat; O] ∧ stream ae2 = Some 1%nat.
Proof.
  simpl. split; [reflexivity|]. split; [|by repeat split].
  unfold reportsAlreadyRunning. simpl. intros [H _]. by apply H.
Qed.

(** C2, as the code has it.  [Start] on a running engine makes no
    already-running check: it behaves as it does on a stopped one.  When
    no driver call fails it returns no error, opens a fresh stream, makes
    that stream the engine's (the earlier one stays open) and the engine
    stays running. *)
Theorem Start_while_running (ae : AudioEngine) (w : Driver) :
  IsRunning ae = true ->
  let '(err, ae', w') := Start ae w allSucceed in
  err = None ∧
  openStreams w' = nextHandle w :: openStreams w ∧
  stream ae' = Some (nextHandle w) ∧
  IsRunning ae' = true ∧
  let '(err0, _, w0) := Start (storeIsRunning ae 0) w allSucceed in
  err0 = err ∧ w0 = w'.
Proof. intros _. simpl. by repeat split. Qed.

Lemma Start_while_running_witness :
  let ae1 := (Start NewAudioEngine idleDriver allSucceed).1.2 in
  let w1 := (Start NewAudioEngine idleDriver allSucceed).2 in
  IsRunning ae1 = true ∧
  (Start ae1 w1 allSucceed).1.1 = None ∧
  openStreams (Start ae1 w1 allSucceed).2 = [1%nat; O].
Proof.
  intros ae1 w1.
  assert (Hr : IsRunning ae1 = true) by reflexivity.
  split; [exact Hr|].
  pose proof (Start_while_running ae1 w1 Hr) as H.
  destruct (Start ae1 w1 allSucceed) as [[err ae'] w'].
  destruct H as (He & Ho & _). split; [exact He | exact Ho].
Defined.

End StartFacts.

(** ** The oscillator: the phase accumulator *)

Section PhaseFacts.
Import Oscillators.

(** Where the single conditional subtraction is enough: an increment in
    [0, 2π) keeps a canonical phase canonical. *)
Lemma advancePhase_canonical (o : Oscillator) :
  canonical (Phase o) -> 0 <= phaseInc o < 2 * PI ->
  canonical (Phase (advancePhase o)).
Proof.
  unfold canonical, advancePhase. simpl. intros Hp Hi.
  destruct (Rge_dec _ _); lra.
Qed.

Lemma generateLoop_canonical (buffer : list R) (o : Oscillator)
    (randState : Z) :
  canonical (Phase o) -> 0 <= phaseInc o < 2 * PI ->
  canonical (Phase (generateLoop o randState buffer).1.1).
Proof.
  revert o randState.
  induction buffer as [|x rest IH]; intros o rs Hp Hi; simpl; [done|].
  unfold generateSample. destruct (waveform o rs) as [sample rs1].
  specialize (IH (advancePhase o) rs1
                 (advancePhase_canonical o Hp Hi) Hi).
  destruct (generateLoop (advancePhase o) rs1 rest) as [[o2 outs] rs2].
  exact IH.
Qed.

Lemma Get_Set (key : string) (value : R) (pm : Params.ParameterManager) :
  Params.Get key (Params.Set_ key value pm) = (value, true).
Proof. unfold Params.Get, Params.Set_. simpl. by rewrite lookup_insert_eq. Qed.

Lemma refreshFrequency_Set (o : Oscillator) (value : R)
    (pm : Params.ParameterManager) :
  refreshFrequency o (Params.Set_ "osc1_frequency" value pm) =
  mkOsc (Type_ o) value (Amplitude o) (Phase o)
        (2 * PI * value / IZR SampleRate).
Proof. unfold refreshFrequency. by rewrite Get_Set. Qed.

(** The phase after a one-sample [Generate] that follows a [Set] of the
    frequency. *)
Lemma Generate_one_sample_phase (o : Oscillator) (value x : R)
    (pm : Params.ParameterManager) (randState : Z) :
  Phase (Generate o [x] (Params.Set_ "osc1_frequency" value pm)
                  randState).1.1 =
  let ph := Phase o + 2 * PI * value / 44100 in
  if Rge_dec ph (2 * PI) then ph - 2 * PI else ph.
Proof.
  unfold Generate. rewrite refreshFrequency_Set.
  cbn [generateLoop]. unfold generateSample.
  destruct (waveform _ randState) as [sample rs1]. reflexivity.
Qed.

(** C8, at two frequencies the parameter store can hold.  The default
    oscillator (sine, 440 Hz, phase 0) generates one sample after
    [osc1_frequency] was set to 88200 Hz: the increment is 4π, one
    subtraction of 2π leaves the phase at 2π, outside [0, 2π).  After
    [osc1_frequency] was set to -440 Hz the phase is negative and no
    branch of the wrap touches it. *)
Theorem Generate_phase_not_wrapped :
  let o := NewOscillator OscSine 440 (3 / 10) in
  let high := Params.Set_ "osc1_frequency" 88200 Params.NewParameterManager in
  let low := Params.Set_ "osc1_frequency" (-440) Params.NewParameterManager in
  canonical (Phase o) ∧
  Phase (Generate o [0] high randState0).1.1 = 2 * PI ∧
  ¬ canonical (Phase (Generate o [0] high randState0).1.1) ∧
  Phase (Generate o [0] low randState0).1.1 < 0 ∧
  ¬ canonical (Phase (Generate o [0] low randState0).1.1).
Proof.
  assert (Hpi := PI_RGT_0). intros o high low.
  assert (E1 : Phase (Generate o [0] high randState0).1.1 = 2 * PI).
  { unfold high. rewrite Generate_one_sample_phase. cbn [o NewOscillator Phase].
    cbv zeta. destruct (Rge_dec _ _) as [_|Hn]; [field|].
    exfalso. apply Hn. lra. }
  assert (E2 : Phase (Generate o [0] low randState0).1.1 < 0).
  { unfold low. rewrite Generate_one_sample_phase. cbn [o NewOscillator Phase].
    cbv zeta. destruct (Rge_dec _ _) as [Hge|_]; lra. }
  split; [unfold canonical; simpl; lra|].
  split; [exact E1|]. split; [rewrite E1; unfold canonical; lra|].
  split; [exact E2|]. unfold canonical. lra.
Qed.

End PhaseFacts.

(** ** The biquad filter: history, coefficients, stability *)

Section FilterFacts.
Import Filters.

Lemma clampQ_inside (q : R) : 1 / 10 <= q <= 10 -> clampQ q = q.
Proof.
  intros Hq. unfold clampQ.
  destruct (Rlt_dec q (1 / 10)); [lra|]. destruct (Rgt_dec q 10); lra.
Qed.

Lemma clampQ_range (q : R) : 1 / 10 <= clampQ q <= 10.
Proof.
  unfold clampQ. destruct (Rlt_dec q (1 / 10)); destruct (Rgt_dec _ 10); lra.
Qed.

Lemma refreshParameters_absent (f : Filter) (pm : Params.ParameterManager) :
  Params.params pm !! "filter_frequency" = None ->
  Params.params pm !! "filter_resonance" = None ->
  refreshParameters f pm = f.
Proof.
  intros H1 H2. unfold refreshParameters, Params.Get. by rewrite H1, H2.
Qed.

(** What one loop iteration computes, stores and writes. *)
Lemma processSample_spec (f : Filter) (x0 : R) :
  let y := b0 f * x0 + b1 f * x1 f + b2 f * x2 f
           - a1 f * y1 f - a2 f * y2 f in
  (processSample f x0).2 = clip y ∧
  x1 (processSample f x0).1 = x0 ∧ x2 (processSample f x0).1 = x1 f ∧
  y1 (processSample f x0).1 = y ∧ y2 (processSample f x0).1 = y1 f.
Proof. by repeat split. Qed.

Lemma clip_range (y : R) : -1 <= clip y <= 1.
Proof.
  unfold clip. destruct (Rgt_dec y 1); [lra|].
  destruct (Rlt_dec y (-1)); lra.
Qed.

(** The low-pass filter at a quarter of the sample rate with Q = 1/2:
    omega is π/2, so the sine is 1 and the cosine 0. *)
Lemma quarter_rate_lowpass :
  NewLowPassFilter 11025 (1 / 2) =
  mkFilter FilterLowPass 11025 (1 / 2)
           2 0 0 (1 / 4) (1 / 2) (1 / 4) 0 0 0 0.
Proof.
  unfold NewLowPassFilter, updateCoefficients, normalize, rawCoefficients,
    alphaOf, omegaOf.
  cbn [Type_ Frequency Resonance].
  replace (2 * PI * 11025 / IZR SampleRate) with (PI / 2)
    by (unfold SampleRate; field).
  rewrite sin_PI2, cos_PI2, clampQ_inside by lra.
  unfold setCoefficients.
  cbn [Type_ Frequency Resonance a0 a1 a2 b0 b1 b2 x1 x2 y1 y2].
  f_equal; field.
Qed.

(** C3, at an input [Process] accepts.  The quarter-rate low-pass filter
    processes the one-sample buffer [8]: the equation gives y = 2, the
    buffer receives the clipped value 1, and the history element [y1]
    holds the unclipped 2, outside [-1, 1]. *)
Theorem Process_history_unclamped :
  let '(f, out) :=
    Process (NewLowPassFilter 11025 (1 / 2)) [8] Params.NewParameterManager in
  out = [1] ∧ y1 f = 2 ∧ ¬ (-1 <= y1 f <= 1).
Proof.
  rewrite quarter_rate_lowpass.
  unfold Process. rewrite refreshParameters_absent by reflexivity.
  cbn [processLoop]. unfold processSample, biquad, setHistory.
  cbn [Type_ Frequency Resonance a0 a1 a2 b0 b1 b2 x1 x2 y1 y2].
  replace (1 / 4 * 8 + 1 / 2 * 0 + 1 / 4 * 0 - 0 * 0 - 0 * 0) with 2 by field.
  split; [|split; [reflexivity | lra]].
  unfold clip. destruct (Rgt_dec 2 1); [reflexivity | lra].
Qed.

Lemma rawCoefficients_a0 (f : Filter) :
  a0 (rawCoefficients f) = 1 + alphaOf f.
Proof. unfold rawCoefficients. by destruct (Type_ f). Qed.

(** Whatever the coefficients and the history, what the loop writes to
    the buffer is clipped. *)
Lemma processLoop_clipped (buffer : list R) (f : Filter) :
  Forall (fun y => -1 <= y <= 1) (processLoop f buffer).2.
Proof.
  revert f. induction buffer as [|x0 rest IH]; intros f; cbn [processLoop].
  - constructor.
  - unfold processSample. specialize (IH (setHistory f x0 (x1 f) (biquad f x0) (y1 f))).
    destruct (processLoop _ rest) as [f2 outs]. cbn [snd] in *.
    constructor; [apply clip_range | exact IH].
Qed.

Section Stability.
Variables c1 c2 : R.
Hypothesis Hstable : stable c1 c2.

Lemma energy_step (u v : R) :
  energy c1 c2 (- c1 * u - c2 * v) u <= energy c1 c2 u v.
Proof.
  unfold energy.
  assert (E : (1 - c2 * c2) * ((- c1 * u - c2 * v) * (- c1 * u - c2 * v)
                               + u * u)
              + 2 * c1 * (1 - c2) * (- c1 * u - c2 * v) * u
              = (1 - c2 * c2) * (u * u + v * v) + 2 * c1 * (1 - c2) * u * v
                - ((1 - c2) * (c1 * u + (1 + c2) * v))
                  * ((1 - c2) * (c1 * u + (1 + c2) * v))) by ring.
  rewrite E.
  pose proof (Rle_0_sqr ((1 - c2) * (c1 * u + (1 + c2) * v))) as Hsq.
  unfold Rsqr in Hsq. lra.
Qed.

Lemma energy_lower (u v : R) :
  (1 - c2) * (1 + c2 - Rabs c1) * (u * u) <= energy c1 c2 u v.
Proof.
  destruct Hstable as [Hc2 Hc1]. unfold energy.
  pose proof (Rle_0_sqr (u + v)) as Hp. pose proof (Rle_0_sqr (u - v)) as Hm.
  pose proof (Rle_0_sqr v) as Hv. unfold Rsqr in *.
  unfold Rabs in *. destruct (Rcase_abs c1) as [Hneg|Hnn].
  - assert (H1 : 0 <= (1 + c2 + c1) * (v * v)) by (apply Rmult_le_pos; lra).
    assert (H2 : 0 <= - c1 * ((u - v) * (u - v)))
      by (apply Rmult_le_pos; lra).
    assert (H3 : 0 <= (1 - c2) * ((1 + c2 + c1) * (v * v)
                                  + - c1 * ((u - v) * (u - v))))
      by (apply Rmult_le_pos; lra).
    lra.
  - assert (H1 : 0 <= (1 + c2 - c1) * (v * v)) by (apply Rmult_le_pos; lra).
    assert (H2 : 0 <= c1 * ((u + v) * (u + v)))
      by (apply Rmult_le_pos; lra).
    assert (H3 : 0 <= (1 - c2) * ((1 + c2 - c1) * (v * v)
                                  + c1 * ((u + v) * (u + v))))
      by (apply Rmult_le_pos; lra).
    lra.
Qed.

(** Silence into a filter whose input history is already silent: the
    energy of the output history does not grow. *)
Lemma processLoop_silence (n : nat) :
  ∀ f : Filter,
    a1 f = c1 -> a2 f = c2 -> x1 f = 0 -> x2 f = 0 ->
    energy c1 c2 (y1 (processLoop f (replicate n 0)).1)
                 (y2 (processLoop f (replicate n 0)).1)
    <= energy c1 c2 (y1 f) (y2 f).
Proof.
  induction n as [|n IH]; intros f H1 H2 Hx1 Hx2; cbn [replicate processLoop].
  - cbn. lra.
  - unfold processSample.
    specialize (IH (setHistory f 0 (x1 f) (biquad f 0) (y1 f))
                   H1 H2 eq_refl Hx1).
    destruct (processLoop _ (replicate n 0)) as [f2 outs].
    cbn [fst y1 y2 setHistory] in *.
    eapply Rle_trans; [exact IH|].
    replace (biquad f 0) with (- c1 * y1 f - c2 * y2 f)
      by (unfold biquad; rewrite H1, H2, Hx1, Hx2; ring).
    apply energy_step.
Qed.

Lemma energy_bounds_history (E u v : R) :
  energy c1 c2 u v <= E ->
  Rabs u <= 1 + E / ((1 - c2) * (1 + c2 - Rabs c1)).
Proof.
  intros HE. pose proof (energy_lower u v) as Hlow.
  destruct Hstable as [Hc2 Hc1].
  set (lam := (1 - c2) * (1 + c2 - Rabs c1)) in *.
  assert (Hlam : 0 < lam) by (unfold lam; nra).
  assert (Hu : u * u <= E / lam).
  { apply (Rmult_le_reg_l lam); [exact Hlam|].
    replace (lam * (E / lam)) with E by (field; lra). lra. }
  unfold Rabs. destruct (Rcase_abs u); nra.
Qed.

End Stability.

Lemma processLoop_app (l1 l2 : list R) (f : Filter) :
  (processLoop f (l1 ++ l2)).1 = (processLoop (processLoop f l1).1 l2).1.
Proof.
  revert f. induction l1 as [|x l1 IH]; intros f; [done|].
  cbn [app processLoop]. destruct (processSample f x) as [f1 out].
  specialize (IH f1).
  destruct (processLoop f1 (l1 ++ l2)) as [f2 outs].
  destruct (processLoop f1 l1) as [f3 outs3]. exact IH.
Qed.

Lemma processLoop_coefficients (l : list R) (f : Filter) :
  a1 (processLoop f l).1 = a1 f ∧ a2 (processLoop f l).1 = a2 f.
Proof.
  revert f. induction l as [|x l IH]; intros f; [done|].
  cbn [processLoop]. unfold processSample.
  specialize (IH (setHistory f x (x1 f) (biquad f x) (y1 f))).
  destruct (processLoop _ l) as [f2 outs]. exact IH.
Qed.

(** In the audio range the normalised feedback coefficients lie inside
    the stability triangle, for every variant and every resonance. *)
Lemma updateCoefficients_stable (f : Filter) :
  0 < Frequency f < 22050 ->
  stable (a1 (updateCoefficients f)) (a2 (updateCoefficients f)).
Proof.
  intros Hf.
  assert (Hw : 0 < omegaOf f < PI).
  { unfold omegaOf, SampleRate. pose proof PI_RGT_0. split.
    - apply Rdiv_lt_0_compat; nra.
    - apply (Rmult_lt_reg_r 44100); [lra|].
      replace (2 * PI * Frequency f / 44100 * 44100)
        with (2 * PI * Frequency f) by (field; lra).
      nra. }
  pose proof (sin_gt_0 _ (proj1 Hw) (proj2 Hw)) as Hsin.
  pose proof (sin2_cos2 (omegaOf f)) as Hsc. unfold Rsqr in Hsc.
  pose proof (clampQ_range (Resonance f)) as Hq.
  assert (Halpha : 0 < alphaOf f).
  { unfold alphaOf. apply Rdiv_lt_0_compat; lra. }
  assert (E1 : a1 (updateCoefficients f)
               = -2 * cos (omegaOf f) / (1 + alphaOf f))
    by (unfold updateCoefficients, normalize, rawCoefficients;
        by destruct (Type_ f)).
  assert (E2 : a2 (updateCoefficients f)
               = (1 - alphaOf f) / (1 + alphaOf f))
    by (unfold updateCoefficients, normalize, rawCoefficients;
        by destruct (Type_ f)).
  rewrite E1, E2.
  set (al := alphaOf f) in *. set (c := cos (omegaOf f)) in *.
  assert (Hc : -1 < c < 1) by nra.
  assert (Hi : 0 < / (1 + al)) by (apply Rinv_0_lt_compat; lra).
  assert (Hmul : (1 + al) * / (1 + al) = 1) by (apply Rinv_r; lra).
  unfold stable, Rdiv. set (i := / (1 + al)) in *.
  split; [split; nra|].
  unfold Rabs. destruct (Rcase_abs (-2 * c * i)); nra.
Qed.

(** In the audio range the unclipped output history stays bounded along
    the whole impulse response, whatever the history the filter starts
    from. *)
Lemma impulse_history_bounded (f : Filter) :
  0 < Frequency f < 22050 ->
  ∃ M, ∀ n, Rabs (y1 (processLoop (updateCoefficients f) (impulse n)).1) <= M.
Proof.
  intros Hf. set (g := updateCoefficients f).
  pose proof (updateCoefficients_stable f Hf) as Hst. fold g in Hst.
  set (g3 := (processLoop g [1; 0; 0]).1).
  set (lam := (1 - a2 g) * (1 + a2 g - Rabs (a1 g))).
  set (E := energy (a1 g) (a2 g) (y1 g3) (y2 g3)).
  exists (Rabs (y1 g) + Rabs (y1 (processLoop g [1]).1)
          + Rabs (y1 (processLoop g [1; 0]).1) + (1 + E / lam)).
  intros n.
  pose proof (Rabs_pos (y1 g)). 
  pose proof (Rabs_pos (y1 (processLoop g [1]).1)).
  pose proof (Rabs_pos (y1 (processLoop g [1; 0]).1)).
  assert (Hpos : 0 <= 1 + E / lam).
  { pose proof (energy_bounds_history _ _ Hst E (y1 g3) (y2 g3)
                  (Rle_refl E)) as Hb.
    pose proof (Rabs_pos (y1 g3)). fold lam in Hb. lra. }
  destruct n as [|[|[|n]]]; cbn [impulse replicate].
  - change (y1 (processLoop g []).1) with (y1 g). lra.
  - lra.
  - lra.
  - change (1 :: 0 :: 0 :: replicate n 0) with ([1; 0; 0] ++ replicate n 0).
    rewrite processLoop_app. fold g3.
    destruct (processLoop_coefficients [1; 0; 0] g) as [Hc1 Hc2].
    fold g3 in Hc1, Hc2.
    pose proof (processLoop_silence _ _ n g3 Hc1 Hc2 eq_refl eq_refl) as Hen.
    fold E in Hen.
    pose proof (energy_bounds_history _ _ Hst E _ _ Hen) as Hb.
    fold lam in Hb. lra.
Qed.




End FilterFacts.

(** ** Parameter smoothing *)

Section SmoothingFacts.
Import Params.

Lemma absFloat64_Rabs (x : R) : absFloat64 x = Rabs x.
Proof.
  unfold absFloat64, Rabs. destruct (Rlt_dec x 0), (Rcase_abs x); lra.
Qed.

(** On an active smoother a call returns the advanced value, or the
    target when the advanced value is within the threshold. *)
Lemma GetSmoothed_active (key : string) (d : R) (pm : ParameterManager)
    (s : ParameterSmoother) :
  smoothing pm !! key = Some s -> active s = true ->
  (GetSmoothed key d pm).1 =
  let c := current s + (target s - current s) * rate s in
  if Rlt_dec (absFloat64 (target s - c)) (1 / 10000) then target s else c.
Proof.
  intros Hs Ha. unfold GetSmoothed. rewrite Hs, Ha. unfold smoothStep.
  cbn [current target rate active fst]. by destruct (Rlt_dec _ _).
Qed.

Section OneTarget.
Variables r T : R.
Hypothesis Hr : 0 < r <= 1.

Lemma stepSmoother_settled (s : ParameterSmoother) :
  settled r T s -> settled r T (stepSmoother s).
Proof.
  intros (Ht & Hrt & Hi). unfold stepSmoother.
  destruct (active s) eqn:Ha; [|repeat split; auto].
  unfold smoothStep. cbn [current target rate active].
  destruct (Rlt_dec _ _); repeat split; cbn; try done. congruence.
Qed.

Lemma stepSmoother_rising (s : ParameterSmoother) :
  settled r T s -> current s <= T ->
  current s <= current (stepSmoother s) <= T.
Proof.
  intros (Ht & Hrt & Hi) Hc. unfold stepSmoother.
  destruct (active s); [|lra].
  unfold smoothStep. cbn [current target rate active]. rewrite Ht, Hrt.
  destruct (Rlt_dec _ _); cbn; nra.
Qed.

Lemma stepSmoother_falling (s : ParameterSmoother) :
  settled r T s -> T <= current s ->
  T <= current (stepSmoother s) <= current s.
Proof.
  intros (Ht & Hrt & Hi) Hc. unfold stepSmoother.
  destruct (active s); [|lra].
  unfold smoothStep. cbn [current target rate active]. rewrite Ht, Hrt.
  destruct (Rlt_dec _ _); cbn; nra.
Qed.

Lemma smootherAfter_S (c0 : R) (n : nat) :
  smootherAfter r T c0 (S n) = stepSmoother (smootherAfter r T c0 n).
Proof. reflexivity. Qed.

Lemma smootherAfter_settled (c0 : R) (n : nat) :
  settled r T (smootherAfter r T c0 n).
Proof.
  induction n as [|n IH]; [by repeat split|].
  rewrite smootherAfter_S. by apply stepSmoother_settled.
Qed.

(** While it is active, the distance to the target is the initial one
    times [(1 - r) ^ n]. *)
Lemma smootherAfter_distance (c0 : R) (n : nat) :
  active (smootherAfter r T c0 n) = true ->
  T - current (smootherAfter r T c0 n) = (1 - r) ^ n * (T - c0).
Proof.
  induction n as [|n IH]; [cbn; lra|].
  rewrite !smootherAfter_S.
  destruct (smootherAfter_settled c0 n) as (Ht & Hrt & _).
  unfold stepSmoother. destruct (active (smootherAfter r T c0 n)) eqn:Ha.
  - unfold smoothStep. cbn [current target rate active].
    destruct (Rlt_dec _ _); cbn [active current]; [discriminate|].
    intros _. rewrite Ht, Hrt. specialize (IH eq_refl). cbn [pow]. nra.
  - rewrite Ha. discriminate.
Qed.

Lemma smootherAfter_snaps (c0 : R) (n : nat) :
  Rabs ((1 - r) ^ S n * (T - c0)) < 1 / 10000 ->
  active (smootherAfter r T c0 (S n)) = false.
Proof.
  intros Hsmall. rewrite smootherAfter_S.
  destruct (smootherAfter_settled c0 n) as (Ht & Hrt & _).
  unfold stepSmoother. destruct (active (smootherAfter r T c0 n)) eqn:Ha; [|done].
  pose proof (smootherAfter_distance c0 n Ha) as Hd.
  unfold smoothStep. cbn [current target rate active].
  destruct (Rlt_dec _ _) as [|Hn]; [done|]. exfalso. apply Hn.
  rewrite absFloat64_Rabs, Ht, Hrt.
  replace (T - (current (smootherAfter r T c0 n)
                + (T - current (smootherAfter r T c0 n)) * r))
    with ((1 - r) ^ S n * (T - c0)) by (cbn [pow]; rewrite Rmult_assoc, <- Hd; ring).
  exact Hsmall.
Qed.

Lemma smootherAfter_stays_active (c0 : R) (n : nat) :
  (∀ k, (1 <= k <= n)%nat -> 1 / 10000 <= Rabs ((1 - r) ^ k * (T - c0))) ->
  active (smootherAfter r T c0 n) = true.
Proof.
  induction n as [|n IH]; intros Hbig; [done|].
  assert (Ha : active (smootherAfter r T c0 n) = true) by (apply IH; intros; apply Hbig; lia).
  pose proof (smootherAfter_distance c0 n Ha) as Hd.
  destruct (smootherAfter_settled c0 n) as (Ht & Hrt & _).
  rewrite !smootherAfter_S.
  unfold stepSmoother. rewrite Ha.
  unfold smoothStep. cbn [current target rate active].
  destruct (Rlt_dec _ _) as [Hlt|]; [|done]. exfalso.
  rewrite absFloat64_Rabs, Ht, Hrt in Hlt.
  replace (T - (current (smootherAfter r T c0 n)
                + (T - current (smootherAfter r T c0 n)) * r))
    with ((1 - r) ^ S n * (T - c0)) in Hlt
    by (cbn [pow]; rewrite Rmult_assoc, <- Hd; ring).
  specialize (Hbig (S n) ltac:(lia)). lra.
Qed.

Lemma pow_one_minus_bound (n : nat) :
  0 <= (1 - r) ^ n ∧ (1 - r) ^ n * (1 + INR n * r) <= 1.
Proof.
  induction n as [|n [IH0 IH]].
  - cbn. lra.
  - rewrite S_INR. cbn [pow]. pose proof (pos_INR n) as Hn. split; [nra|].
    assert (H1 : (1 - r) * (1 + (INR n + 1) * r) <= 1 + INR n * r) by nra.
    replace ((1 - r) * (1 - r) ^ n * (1 + (INR n + 1) * r))
      with ((1 - r) ^ n * ((1 - r) * (1 + (INR n + 1) * r))) by ring.
    nra.
Qed.

Lemma callBound_reaches_threshold (c0 : R) (n : nat) :
  (callBound r (Rabs (T - c0)) <= n)%nat ->
  Rabs ((1 - r) ^ n * (T - c0)) < 1 / 10000.
Proof.
  intros Hn. set (d := Rabs (T - c0)) in *.
  assert (Hd : 0 <= d) by apply Rabs_pos.
  destruct (pow_one_minus_bound n) as [Hp0 Hp].
  rewrite Rabs_mult, (Rabs_right ((1 - r) ^ n)) by lra. fold d.
  assert (Hx : 0 <= 10000 * d / r).
  { apply Rmult_le_pos; [lra|]. apply Rlt_le, Rinv_0_lt_compat. lra. }
  assert (Hup : 10000 * d / r < INR n).
  { destruct (archimed (10000 * d / r)) as [Hgt _].
    eapply Rlt_le_trans; [exact Hgt|].
    unfold callBound in Hn. apply le_INR in Hn.
    rewrite INR_IZR_INZ, Z2Nat.id in Hn; [exact Hn|].
    apply le_IZR. lra. }
  assert (Hnr : 10000 * d < INR n * r).
  { apply (Rmult_lt_compat_r r) in Hup; [|lra].
    unfold Rdiv in Hup. rewrite Rmult_assoc, Rinv_l in Hup; lra. }
  destruct (Rlt_dec ((1 - r) ^ n * d) (1 / 10000)) as [|Hge]; [done|].
  exfalso. apply Rnot_lt_le in Hge.
  assert ((1 - r) ^ n * d * (1 + INR n * r) <= d) by nra.
  assert (1 / 10000 * (1 + INR n * r) <= (1 - r) ^ n * d * (1 + INR n * r)).
  { apply Rmult_le_compat_r; [nra | exact Hge]. }
  lra.
Qed.

Lemma smootherAfter_rising (c0 : R) (n : nat) :
  c0 <= T -> c0 <= current (smootherAfter r T c0 n) <= T.
Proof.
  intros Hc. induction n as [|n IH]; [cbn; lra|].
  rewrite smootherAfter_S.
  pose proof (stepSmoother_rising _ (smootherAfter_settled c0 n)
                ltac:(lra)). lra.
Qed.

Lemma smootherAfter_falling (c0 : R) (n : nat) :
  T <= c0 -> T <= current (smootherAfter r T c0 n) <= c0.
Proof.
  intros Hc. induction n as [|n IH]; [cbn; lra|].
  rewrite smootherAfter_S.
  pose proof (stepSmoother_falling _ (smootherAfter_settled c0 n)
                ltac:(lra)). lra.
Qed.

(** One call, seen from the store. *)
Lemma GetSmoothed_step (key : string) (d : R) (pm : ParameterManager)
    (s : ParameterSmoother) :
  params pm !! key = Some T -> smoothing pm !! key = Some s ->
  settled r T s ->
  (GetSmoothed key d pm).1 = current (stepSmoother s) ∧
  params (GetSmoothed key d pm).2 !! key = Some T ∧
  smoothing (GetSmoothed key d pm).2 !! key = Some (stepSmoother s).
Proof.
  intros Hp Hs (_ & _ & Hi). unfold GetSmoothed, stepSmoother. rewrite Hs.
  destruct (active s) eqn:Ha; cbn [fst snd params smoothing].
  - by rewrite lookup_insert_eq.
  - unfold GetWithDefault, Get. rewrite Hp, Hi by done. done.
Qed.

Lemma afterCalls_state (key : string) (d : R) (n : nat) :
  ∀ (pm : ParameterManager) (s : ParameterSmoother),
    params pm !! key = Some T -> smoothing pm !! key = Some s ->
    settled r T s ->
    params (afterCalls n key d pm) !! key = Some T ∧
    smoothing (afterCalls n key d pm) !! key =
      Some (Nat.iter n stepSmoother s).
Proof.
  induction n as [|n IH]; intros pm s Hp Hs Hset; [done|].
  destruct (GetSmoothed_step key d pm s Hp Hs Hset) as (_ & Hp' & Hs').
  cbn [afterCalls]. rewrite Nat.iter_succ_r.
  apply IH; [done | done | by apply stepSmoother_settled].
Qed.

(** The scenario of the specification: smoothing enabled at rate [r],
    then the target set to [T]. *)
Lemma scenario_state (key : string) (d : R) (pm : ParameterManager)
    (n : nat) :
  let start := GetWithDefault key 0 pm in
  let pm2 := Set_ key T (EnableSmoothing key r pm) in
  smoothing (afterCalls n key d pm2) !! key =
    Some (smootherAfter r T start n) ∧
  nthCall n key d pm2 = current (smootherAfter r T start (S n)).
Proof.
  intros start pm2.
  assert (Hp : params pm2 !! key = Some T)
    by (unfold pm2, Set_; cbn; by rewrite lookup_insert_eq).
  assert (Hs : smoothing pm2 !! key = Some (mkSmoother start T r true)).
  { unfold pm2, Set_, EnableSmoothing. cbn [smoothing].
    rewrite lookup_insert_eq. cbn. by rewrite lookup_insert_eq. }
  assert (Hset : settled r T (mkSmoother start T r true))
    by (by repeat split).
  destruct (afterCalls_state key d n pm2 _ Hp Hs Hset) as [Hp' Hs'].
  split; [exact Hs'|].
  unfold nthCall.
  destruct (GetSmoothed_step key d _ _ Hp' Hs'
              (smootherAfter_settled start n)) as (Hv & _).
  rewrite Hv. by rewrite smootherAfter_S.
Qed.

End OneTarget.




End SmoothingFacts.

(** ** The delay effect *)

Section NumericFacts.

Lemma Int_part_IZR (z : Z) : Int_part (IZR z) = z.
Proof.
  unfold Int_part.
  assert (H : (z + 1)%Z = up (IZR z)).
  { apply tech_up; rewrite plus_IZR; lra. }
  lia.
Qed.

Lemma trunc_between (x : R) (z : Z) :
  0 <= IZR z <= x -> x < IZR z + 1 -> trunc x = z.
Proof.
  intros Hz Hx. unfold trunc. destruct (Rle_dec 0 x); [|lra].
  unfold Int_part.
  assert (H : (z + 1)%Z = up x) by (apply tech_up; rewrite plus_IZR; lra).
  lia.
Qed.

Lemma trunc_IZR (z : Z) : trunc (IZR z) = z.
Proof.
  unfold trunc. destruct (Rle_dec 0 (IZR z)); [apply Int_part_IZR|].
  rewrite <- opp_IZR, Int_part_IZR. lia.
Qed.

(** [%] on the index ranges the delay loops produce. *)
Lemma goRem_wrap (a L : Z) :
  (0 <= a < 2 * L)%Z ->
  goRem a L = Some (if (a <? L)%Z then a else (a - L)%Z).
Proof.
  intros Ha. unfold goRem.
  destruct (Z.eqb_spec L 0) as [->|HL]; [lia|]. f_equal.
  rewrite Z.rem_mod_nonneg by lia.
  destruct (Z.ltb_spec a L).
  - apply Z.mod_small. lia.
  - symmetry. apply (Z.mod_unique a L 1); lia.
Qed.

Lemma sliceGet_nat (l : list R) (i : nat) :
  sliceGet l (Z.of_nat i) = l !! i.
Proof.
  unfold sliceGet. destruct (Z.leb_spec 0 (Z.of_nat i)); [|lia].
  by rewrite Nat2Z.id.
Qed.

Lemma sliceSet_nat (l : list R) (i : nat) (v : R) :
  (i < length l)%nat ->
  sliceSet l (Z.of_nat i) v = Some (<[i := v]> l).
Proof.
  intros Hi. unfold sliceSet.
  destruct (Z.leb_spec 0 (Z.of_nat i)); [|lia].
  destruct (Z.ltb_spec (Z.of_nat i) (Z.of_nat (length l))); [|lia].
  by rewrite Nat2Z.id.
Qed.

End NumericFacts.

Section ViewFacts.
Import Effects.

Lemma view_length (line : list R) (i : nat) :
  (i <= length line)%nat -> length (view line i) = length line.
Proof.
  intros Hi. unfold view.
  rewrite length_app, length_drop, length_take. lia.
Qed.

(** Slot [k] of the view is slot [i + k] of the line, wrapped. *)
Lemma view_lookup (line : list R) (i k : nat) :
  (i < length line)%nat -> (k < length line)%nat ->
  view line i !! k =
  line !! (if decide (i + k < length line)%nat then i + k
           else i + k - length line)%nat.
Proof.
  intros Hi Hk. unfold view. case_decide.
  - rewrite lookup_app_l by (rewrite length_drop; lia).
    by rewrite lookup_drop.
  - rewrite lookup_app_r by (rewrite length_drop; lia).
    rewrite length_drop, lookup_take_lt by lia. f_equal. lia.
Qed.

(** Writing at the index and advancing it drops the oldest sample of the
    view and appends the written one. *)
Lemma view_write (line : list R) (i : nat) (w : R) :
  (i < length line)%nat ->
  view (<[i := w]> line)
       (if decide (i + 1 < length line)%nat then i + 1 else 0)%nat =
  drop 1 (view line i) ++ [w].
Proof.
  intros Hi. apply list_eq. intros k.
  destruct (decide (k < length line)%nat) as [Hk|Hk].
  - rewrite view_lookup; rewrite ?length_insert; [|case_decide; lia|lia].
    destruct (decide (k = length line - 1)%nat) as [->|Hne].
    + rewrite lookup_app_r
        by (rewrite length_drop, view_length by lia; lia).
      rewrite length_drop, view_length by lia.
      replace (length line - 1 - (length line - 1))%nat with O by lia.
      cbn [lookup list_lookup].
      repeat case_decide; try lia;
        match goal with
        | |- <[i := w]> line !! ?j = _ => replace j with i by lia
        end; apply list_lookup_insert_eq; lia.
    + rewrite lookup_app_l
        by (rewrite length_drop, view_length by lia; lia).
      rewrite lookup_drop, view_lookup by lia.
      repeat case_decide; try lia;
        (rewrite list_lookup_insert_ne by lia; f_equal; lia).
  - rewrite !lookup_ge_None_2; [done| |].
    + rewrite length_app, length_drop, view_length by lia. cbn. lia.
    + rewrite view_length; rewrite length_insert; [lia|].
      case_decide; lia.
Qed.

End ViewFacts.

Section DelayFacts.
Import Effects.

(** One iteration of the delay loop, seen on the view.  [ws] is what was
    written to the line so far, after the zeros the line started with. *)
Lemma delaySample_view (e : Effect) (D i t : nat) (f x : R) (ws : list R) :
  let L := length (delayLine e) in
  delayIndex e = Z.of_nat i -> (i < L)%nat -> (1 <= D < L)%nat ->
  view (delayLine e) i = drop t (replicate L 0 ++ ws) -> length ws = t ->
  ∃ r line' i',
    (replicate L 0 ++ ws) !! (t + L - D)%nat = Some r ∧
    delaySample e (Z.of_nat D) f x =
      Some (setDelayState e line' (Z.of_nat i'), blend e x r) ∧
    (i' < L)%nat ∧ length line' = L ∧
    view line' i' = drop (S t) (replicate L 0 ++ (ws ++ [x + r * f])).
Proof.
  intros L Hidx Hi HD Hview Hws.
  assert (Hlen : length (replicate L 0 ++ ws) = (L + t)%nat)
    by (rewrite length_app, length_replicate; lia).
  destruct (lookup_lt_is_Some_2 (replicate L 0 ++ ws) (t + L - D))
    as [r Hr]; [lia|].
  set (p := if decide (i < D)%nat then (i + L - D)%nat else (i - D)%nat).
  set (i' := if decide (i + 1 < L)%nat then (i + 1)%nat else O).
  exists r, (<[i := x + r * f]> (delayLine e)), i'.
  assert (Hread : delayLine e !! p = Some r).
  { rewrite <- Hr.
    replace (t + L - D)%nat with (t + (L - D))%nat by lia.
    rewrite <- lookup_drop, <- Hview, view_lookup by (fold L; lia).
    fold L. unfold p. f_equal. repeat case_decide; lia. }
  split; [exact Hr|]. split; [|split; [|split]].
  - unfold delaySample, len. fold L. rewrite Hidx.
    rewrite !goRem_wrap by lia.
    replace (if (Z.of_nat i - Z.of_nat D + Z.of_nat L <? Z.of_nat L)%Z
             then (Z.of_nat i - Z.of_nat D + Z.of_nat L)%Z
             else (Z.of_nat i - Z.of_nat D + Z.of_nat L - Z.of_nat L)%Z)
      with (Z.of_nat p).
    2:{ unfold p. destruct (Z.ltb_spec (Z.of_nat i - Z.of_nat D + Z.of_nat L)
                              (Z.of_nat L)); case_decide; lia. }
    cbn [mbind option_bind]. rewrite sliceGet_nat, Hread.
    cbn [mbind option_bind]. rewrite sliceSet_nat by (fold L; lia).
    cbn [mbind option_bind]. do 3 f_equal.
    unfold i'. destruct (Z.ltb_spec (Z.of_nat i + 1) (Z.of_nat L));
      case_decide; lia.
  - unfold i'. case_decide; lia.
  - by rewrite length_insert.
  - unfold i'. rewrite view_write by (fold L; lia). rewrite Hview.
    rewrite drop_drop, (app_assoc (replicate L 0)).
    rewrite (drop_app_le _ _ (S t)) by lia. f_equal. f_equal. lia.
Qed.

Lemma impulse_map (n : nat) :
  impulse n = map (fun t => if t is O then 1 else 0) (seq 0 n).
Proof.
  destruct n as [|n]; [reflexivity|]. cbn [impulse seq map]. f_equal.
  generalize O. induction n as [|n IH]; intros k; [reflexivity|].
  cbn [replicate seq map]. f_equal. apply IH.
Qed.

Section Impulse.
Variables (D : nat) (f : R).
Hypothesis HD : (1 <= D)%nat.

Lemma echo_written (t : nat) :
  echo D f t = if (D <=? t)%nat then written D f (t - D) else 0.
Proof.
  unfold echo, written. destruct (Nat.leb_spec D t) as [Hle|Hlt]; [|done].
  cbn [andb].
  assert (Hm : (t mod D = (t - D) mod D)%nat).
  { replace t with (t - D + 1 * D)%nat at 1 by lia.
    apply Nat.Div0.mod_add. }
  assert (Hq : (t / D = (t - D) / D + 1)%nat).
  { replace t with (t - D + 1 * D)%nat at 1 by lia.
    apply Nat.div_add. lia. }
  rewrite Hm, Hq.
  replace ((t - D) / D + 1 - 1)%nat with ((t - D) / D)%nat by lia. done.
Qed.

Lemma written_step (t : nat) :
  (if t is O then 1 else 0) + echo D f t * f = written D f t.
Proof.
  unfold echo, written. destruct t as [|t].
  - replace (D <=? 0)%nat with false
      by (symmetry; apply Nat.leb_gt; lia).
    cbn [andb]. rewrite Nat.Div0.mod_0_l, Nat.Div0.div_0_l. cbn. ring.
  - destruct (Nat.eqb_spec (S t mod D) 0) as [Hm|Hm].
    + assert (Hle : (D <= S t)%nat).
      { destruct (Nat.le_gt_cases D (S t)) as [|Hlt]; [done|].
        rewrite Nat.mod_small in Hm by lia. lia. }
      replace (D <=? S t)%nat with true
        by (symmetry; by apply Nat.leb_le).
      cbn [andb].
      assert (Hq : (1 <= S t / D)%nat).
      { apply Nat.div_le_lower_bound; lia. }
      destruct (S t / D)%nat as [|q]; [lia|].
      replace (S q - 1)%nat with q by lia. cbn [pow]. ring.
    + rewrite andb_false_r. ring.
Qed.

(** The delay loop on the samples [t, t + n) of a unit impulse, from a
    line that holds the impulse response written so far. *)
Lemma delayLoop_impulse (n : nat) :
  ∀ (e : Effect) (t i : nat),
    Mix e = 1 ->
    delayIndex e = Z.of_nat i -> (i < length (delayLine e))%nat ->
    (D < length (delayLine e))%nat ->
    view (delayLine e) i =
      drop t (replicate (length (delayLine e)) 0
              ++ map (written D f) (seq 0 t)) ->
    ∃ e', delayLoop e (Z.of_nat D) f
                    (map (fun t => if t is O then 1 else 0) (seq t n)) =
          Some (e', map (echo D f) (seq t n)).
Proof.
  induction n as [|n IH]; intros e t i Hmix Hidx Hi HL Hview.
  - exists e. reflexivity.
  - destruct (delaySample_view e D i t f (if t is O then 1 else 0)
                (map (written D f) (seq 0 t)) Hidx Hi ltac:(lia) Hview)
      as (r & line' & i' & Hr & Hstep & Hi' & Hlen' & Hview');
      [by rewrite length_map, length_seq|].
    assert (Er : r = echo D f t).
    { rewrite echo_written. destruct (Nat.leb_spec D t) as [Hle|Hlt].
      - rewrite lookup_app_r in Hr by (rewrite length_replicate; lia).
        rewrite length_replicate, list_lookup_fmap in Hr.
        rewrite lookup_seq_lt in Hr by lia. cbn in Hr.
        replace (t + length (delayLine e) - D - length (delayLine e))%nat
          with (t - D)%nat in Hr by lia.
        congruence.
      - rewrite lookup_app_l in Hr by (rewrite length_replicate; lia).
        apply lookup_replicate_1 in Hr. tauto. }
    subst r. rewrite written_step in Hview'.
    replace (map (written D f) (seq 0 t) ++ [written D f t])
      with (map (written D f) (seq 0 (S t))) in Hview'
      by (by rewrite seq_S, map_app).
    destruct (IH (setDelayState e line' (Z.of_nat i')) (S t) i')
      as [e' He']; cbn [Mix delayIndex delayLine setDelayState];
      try rewrite Hlen'; try done.
    exists e'. cbn [seq map delayLoop]. rewrite Hstep.
    cbn [mbind option_bind]. rewrite He'. cbn [mbind option_bind].
    do 3 f_equal. unfold blend. rewrite Hmix. ring.
Qed.

Lemma echo_multiple (k : nat) :
  (1 <= k)%nat -> echo D f (k * D) = f ^ (k - 1).
Proof.
  intros Hk. unfold echo.
  rewrite Nat.Div0.mod_mul, Nat.div_mul by lia.
  replace (D <=? k * D)%nat with true; [done|].
  symmetry. apply Nat.leb_le. nia.
Qed.

End Impulse.

Lemma view_zeros (L i : nat) :
  (i <= L)%nat -> view (replicate L 0) i = replicate L 0.
Proof.
  intros Hi. unfold view.
  rewrite drop_replicate, take_replicate, <- replicate_add.
  f_equal. lia.
Qed.

Lemma delaySamplesOf_lt (e : Effect) :
  (0 < len (delayLine e))%Z -> (delaySamplesOf e < len (delayLine e))%Z.
Proof.
  intros HL. unfold delaySamplesOf. cbv zeta. rewrite Z.geb_leb.
  destruct (Z.leb_spec (len (delayLine e))
              (trunc (readParam (Parameters e) "time" * IZR SampleRate)));
    lia.
Qed.

(** [processDelay] at full wet mix on a unit impulse, from a line of
    zeros: the whole output. *)
Lemma processDelay_impulse (e : Effect) (L n : nat) :
  Mix e = 1 -> delayLine e = replicate L 0 ->
  (0 <= delayIndex e < Z.of_nat L)%Z ->
  (1 <= delaySamplesOf e)%Z ->
  ∃ e', processDelay e (impulse n) =
        Some (e', map (echo (Z.to_nat (delaySamplesOf e))
                            (readParam (Parameters e) "feedback"))
                      (seq 0 n)).
Proof.
  intros Hmix Hline Hidx HD.
  assert (HlenL : length (delayLine e) = L)
    by (by rewrite Hline, length_replicate).
  pose proof (delaySamplesOf_lt e) as Hlt. unfold len in Hlt.
  rewrite HlenL in Hlt. specialize (Hlt ltac:(lia)).
  unfold processDelay. rewrite impulse_map.
  assert (E : delaySamplesOf e = Z.of_nat (Z.to_nat (delaySamplesOf e)))
    by (rewrite Z2Nat.id; lia).
  rewrite E, Nat2Z.id.
  apply (delayLoop_impulse (Z.to_nat (delaySamplesOf e)) _ ltac:(lia)
           n e O (Z.to_nat (delayIndex e)));
    rewrite ?HlenL; try lia; [done|].
  rewrite Hline, view_zeros by lia. cbn [seq map drop].
  by rewrite app_nil_r.
Qed.

(** The delay effect of [NewEffect] with its time set to 0.1 ms and its
    mix to 1: the delay is [int(4.41)], four samples, and the feedback is
    the default 0.3. *)
Lemma shortDelay_facts :
  let e := setMix (setParameter (NewEffect EffectDelay) "time" (1 / 10000)) 1 in
  Mix e = 1 ∧
  delayLine e = replicate (Z.to_nat SampleRate) 0 ∧
  (0 <= delayIndex e < Z.of_nat (Z.to_nat SampleRate))%Z ∧
  delaySamplesOf e = 4%Z ∧
  readParam (Parameters e) "feedback" = 3 / 10.
Proof.
  intros e.
  assert (HL : delayLine e = replicate (Z.to_nat SampleRate) 0)
    by reflexivity.
  split; [reflexivity|]. split; [exact HL|].
  split; [split; reflexivity|]. split; [|reflexivity].
  unfold delaySamplesOf. rewrite HL. unfold len.
  rewrite length_replicate.
  replace (readParam (Parameters e) "time") with (1 / 10000) by reflexivity.
  rewrite (trunc_between _ 4) by (unfold SampleRate; lra).
  reflexivity.
Qed.

(** C4, refuted as stated.  That effect processes a unit impulse of nine
    samples: the sample at lag 4 is 1, not 0.3, and the sample at lag 8 is
    0.3, not 0.09. *)
Lemma delay_first_echo_is_unattenuated :
  let e := setMix (setParameter (NewEffect EffectDelay) "time" (1 / 10000)) 1 in
  delaySamplesOf e = 4%Z ∧
  readParam (Parameters e) "feedback" = 3 / 10 ∧
  ∃ e' out,
    Process e (impulse 9) Params.NewParameterManager = Some (e', out) ∧
    out !! 4%nat = Some 1 ∧ 1 ≠ claimedEcho (3 / 10) 1 ∧
    out !! 8%nat = Some (3 / 10) ∧ 3 / 10 ≠ claimedEcho (3 / 10) 2.
Proof.
  intros e. destruct shortDelay_facts as (Hmix & HL & Hidx & HD & Hf).
  fold e in Hmix, HL, Hidx, HD, Hf.
  split; [exact HD|]. split; [exact Hf|].
  destruct (processDelay_impulse e (Z.to_nat SampleRate) 9 Hmix HL Hidx)
    as [e' He']; [rewrite HD; lia|].
  rewrite HD, Hf in He'.
  exists e', (map (echo 4 (3 / 10)) (seq 0 9)).
  split; [exact He'|].
  rewrite !list_lookup_fmap, !lookup_seq_lt by lia.
  cbn [fmap option_fmap option_map Nat.add].
  assert (E1 : echo 4 (3 / 10) 4 = (3 / 10) ^ (1 - 1))
    by exact (echo_multiple 4 (3 / 10) ltac:(lia) 1 ltac:(lia)).
  assert (E2 : echo 4 (3 / 10) 8 = (3 / 10) ^ (2 - 1))
    by exact (echo_multiple 4 (3 / 10) ltac:(lia) 2 ltac:(lia)).
  rewrite E1, E2. unfold claimedEcho. cbn [Nat.sub pow].
  repeat split; try (f_equal; lra); lra.
Qed.

(** C4, as the code has it.  For a delay effect at full wet mix whose line
    holds only zeros (as after [NewEffect] or [Reset]) and whose delay
    [D] is at least one sample, [Process] on a unit impulse followed by
    silence returns, for every [k >= 1] within the buffer, the amplitude
    [f ^ (k - 1)] at lag [D * k]: the first echo has the amplitude of the
    input and each later one is the previous one times the feedback [f].
    Every sample whose lag is not such a multiple is zero. *)
Theorem delay_impulse_echoes (e : Effect) (L n : nat)
    (params : Params.ParameterManager) :
  Type_ e = EffectDelay -> Mix e = 1 ->
  delayLine e = replicate L 0 ->
  (0 <= delayIndex e < Z.of_nat L)%Z ->
  (1 <= delaySamplesOf e)%Z ->
  let D := Z.to_nat (delaySamplesOf e) in
  let f := readParam (Parameters e) "feedback" in
  ∃ e' out,
    Process e (impulse n) params = Some (e', out) ∧
    length out = n ∧
    (∀ k, (1 <= k)%nat -> (k * D < n)%nat ->
          out !! (k * D)%nat = Some (f ^ (k - 1))) ∧
    (∀ m, (m < n)%nat -> (m mod D ≠ 0)%nat ∨ m = O -> out !! m = Some 0).
Proof.
  intros Ht Hmix Hline Hidx HD D f.
  destruct (processDelay_impulse e L n Hmix Hline Hidx HD) as [e' He'].
  fold D f in He'.
  exists e', (map (echo D f) (seq 0 n)).
  split; [unfold Process; by rewrite Ht|].
  split; [by rewrite length_map, length_seq|]. split.
  - intros k Hk Hlt. rewrite list_lookup_fmap, lookup_seq_lt by lia.
    cbn. f_equal. apply echo_multiple; unfold D; lia.
  - intros m Hm Hcase. rewrite list_lookup_fmap, lookup_seq_lt by lia.
    cbn. f_equal. unfold echo. destruct Hcase as [Hne| ->].
    + destruct (Nat.eqb_spec (m mod D) 0); [done|].
      by rewrite andb_false_r.
    + replace (D <=? 0)%nat with false; [done|].
      symmetry. apply Nat.leb_gt. unfold D. lia.
Qed.

Lemma delay_impulse_echoes_witness :
  let e := setMix (setParameter (NewEffect EffectDelay) "time" (1 / 10000)) 1 in
  ∃ e' out,
    Process e (impulse 9) Params.NewParameterManager = Some (e', out) ∧
    length out = 9%nat ∧ out !! 8%nat = Some (3 / 10).
Proof.
  intros e. destruct shortDelay_facts as (Hmix & HL & Hidx & HD & Hf).
  fold e in Hmix, HL, Hidx, HD, Hf.
  assert (H1 : (1 <= delaySamplesOf e)%Z) by (rewrite HD; lia).
  destruct (delay_impulse_echoes e (Z.to_nat SampleRate) 9
              Params.NewParameterManager eq_refl Hmix HL Hidx H1)
    as (e' & out & Hp & Hlen & Hecho & _).
  exists e', out. split; [exact Hp|]. split; [exact Hlen|].
  specialize (Hecho 2%nat). rewrite HD, Hf in Hecho.
  replace (3 / 10) with ((3 / 10) ^ (2 - 1)) by (cbn; lra).
  apply Hecho; cbn; lia.
Defined.

End DelayFacts.

(** ** The chorus effect *)

Section ChorusFacts.
Import Effects.

Lemma goRem_range (a L : Z) :
  (0 <= a)%Z -> (0 < L)%Z ->
  ∃ p : nat, goRem a L = Some (Z.of_nat p) ∧ (p < Z.to_nat L)%nat.
Proof.
  intros Ha HL. exists (Z.to_nat (Z.rem a L)).
  pose proof (Z.rem_bound_pos a L Ha HL) as Hb.
  unfold goRem. destruct (Z.eqb_spec L 0); [lia|].
  rewrite Z2Nat.id by lia. split; [done | lia].
Qed.

(** The interpolated read never panics below the bypass threshold. *)
Lemma chorusRead_total (line : list R) (idx : Z) (delaySamples : R) :
  (0 <= idx < len line)%Z -> (trunc delaySamples < len line - 1)%Z ->
  ∃ delayed, chorusRead line idx delaySamples = Some delayed.
Proof.
  intros Hidx Hd. unfold chorusRead, len in *.
  destruct (goRem_range (idx - trunc delaySamples
                         + Z.of_nat (length line))
                        (Z.of_nat (length line)))
    as (r1 & -> & Hr1); [lia | lia |].
  cbn [mbind option_bind].
  destruct (goRem_range (Z.of_nat r1 - 1 + Z.of_nat (length line))
                        (Z.of_nat (length line)))
    as (r2 & -> & Hr2); [lia | lia |].
  cbn [mbind option_bind]. rewrite !sliceGet_nat.
  destruct (lookup_lt_is_Some_2 line r1) as [s1 ->]; [lia|].
  destruct (lookup_lt_is_Some_2 line r2) as [s2 ->]; [lia|].
  cbn [mbind option_bind]. by eexists.
Qed.

Lemma chorusRead_eval (line : list R) (idx d : Z) (delaySamples s1 s2 : R)
    (r1 r2 : nat) :
  trunc delaySamples = d ->
  goRem (idx - d + len line) (len line) = Some (Z.of_nat r1) ->
  goRem (Z.of_nat r1 - 1 + len line) (len line) = Some (Z.of_nat r2) ->
  line !! r1 = Some s1 -> line !! r2 = Some s2 ->
  chorusRead line idx delaySamples =
  Some (s1 * (1 - (delaySamples - IZR d)) + s2 * (delaySamples - IZR d)).
Proof.
  intros Hd H1 H2 Hs1 Hs2. unfold chorusRead. rewrite Hd, H1.
  cbn [mbind option_bind]. rewrite H2. cbn [mbind option_bind].
  rewrite !sliceGet_nat, Hs1. cbn [mbind option_bind]. rewrite Hs2. done.
Qed.

(** The bypass branch of the loop body. *)
Lemma chorusSample_bypass (e : Effect) (x : R) :
  (len (delayLine e) - 1 <=
   trunc (modulatedDelay e (sin (lfoPhase e)
                            * readParam (Parameters e) "depth")))%Z ->
  chorusSample e x = Some ((lfoStep e).2, x).
Proof.
  intros Hge. unfold chorusSample, lfoStep.
  cbn [delayLine delayIndex setLfoPhase snd].
  change (modulatedDelay (setLfoPhase e _) ?l) with (modulatedDelay e l).
  destruct (Z.ltb_spec
              (trunc (modulatedDelay e (sin (lfoPhase e)
                                        * readParam (Parameters e) "depth")))
              (len (delayLine e) - 1)); [lia | done].
Qed.

(** The processing branch: the read is made on the line as it is before
    the write. *)
Lemma chorusSample_process (e : Effect) (x delayed : R) :
  let delaySamples :=
    modulatedDelay e (sin (lfoPhase e) * readParam (Parameters e) "depth") in
  (trunc delaySamples < len (delayLine e) - 1)%Z ->
  (0 <= delayIndex e < len (delayLine e))%Z ->
  chorusRead (delayLine e) (delayIndex e) delaySamples = Some delayed ->
  chorusSample e x =
  Some (setDelayState (lfoStep e).2
          (<[Z.to_nat (delayIndex e) := x]> (delayLine e))
          (Z.rem (delayIndex e + 1) (len (delayLine e))),
        blend e x delayed).
Proof.
  intros ds Hlt Hidx Hread. unfold chorusSample, lfoStep.
  cbn [delayLine delayIndex setLfoPhase snd].
  change (modulatedDelay (setLfoPhase e _) ?l) with (modulatedDelay e l).
  fold ds.
  destruct (Z.ltb_spec (trunc ds) (len (delayLine e) - 1)); [|lia].
  rewrite Hread. cbn [mbind option_bind].
  unfold sliceSet. fold (len (delayLine e)).
  destruct (Z.leb_spec 0 (delayIndex e)); [|lia].
  destruct (Z.ltb_spec (delayIndex e) (len (delayLine e))); [|lia].
  cbn [andb mbind option_bind]. unfold goRem.
  destruct (Z.eqb_spec (len (delayLine e)) 0); [lia|]. done.
Qed.

Lemma chorusLoop_one (e e' : Effect) (x out : R) :
  chorusSample e x = Some (e', out) ->
  chorusLoop e [x] = Some (e', [out]).
Proof. intros H. cbn [chorusLoop]. by rewrite H. Qed.

(** The line of a chorus built by [NewEffect]: 4410 zeros. *)
Lemma chorus_line_length :
  len (replicate (Z.to_nat (Z.quot SampleRate 10)) 0) = 4410%Z.
Proof. unfold len. rewrite length_replicate. reflexivity. Qed.




End ChorusFacts.

(** * Further properties of the code *)

(** ** The parameter manager as a store *)

Section StoreFacts.
Import Params.

(** X1.  [Get] after [Set] on the same key returns the value set and
    reports the key as present; every other key reads as before, in the
    primary record, in its lock-free slot and in the snapshot [GetAll]
    gives, which differs from the earlier one at that key only. *)
Theorem Set_Get_roundtrip (key key' : string) (value : R)
    (pm : ParameterManager) :
  Get key (Set_ key value pm) = (value, true) ∧
  GetAll (Set_ key value pm) = <[key := value]> (GetAll pm) ∧
  (key' ≠ key ->
   Get key' (Set_ key value pm) = Get key' pm ∧
   GetAtomic key' (Set_ key value pm) = GetAtomic key' pm ∧
   smoothing (Set_ key value pm) !! key' = smoothing pm !! key').
Proof.
  split; [unfold Get, Set_; cbn; by rewrite lookup_insert_eq|].
  split; [reflexivity|]. intros Hne. split; [|split].
  - unfold Get, Set_. cbn. by rewrite lookup_insert_ne.
  - unfold GetAtomic, Set_. cbn.
    destruct (atomicParams pm !! key); [by rewrite lookup_insert_ne | done].
  - unfold Set_. cbn.
    destruct (smoothing pm !! key); [by rewrite lookup_insert_ne | done].
Qed.

(** X2.  A key the store never saw: [Get] reports it absent with the zero
    value, [GetWithDefault] and [GetSmoothed] return the caller's default,
    [GetAtomic] reports no slot, and [GetSmoothed] leaves the store as it
    was. *)
Theorem unknown_key_reads_default (key : string) (d : R)
    (pm : ParameterManager) :
  params pm !! key = None -> smoothing pm !! key = None ->
  atomicParams pm !! key = None ->
  Get key pm = (0, false) ∧
  GetWithDefault key d pm = d ∧
  GetSmoothed key d pm = (d, pm) ∧
  GetAtomic key pm = (0, false).
Proof.
  intros Hp Hs Ha. unfold GetSmoothed, GetWithDefault, Get, GetAtomic.
  by rewrite Hp, Hs, Ha.
Qed.

Lemma unknown_key_reads_default_witness :
  GetSmoothed "cutoff" 440 (Set_ "gain" 1 NewParameterManager) =
  (440, Set_ "gain" 1 NewParameterManager).
Proof.
  apply (unknown_key_reads_default "cutoff" 440
           (Set_ "gain" 1 NewParameterManager)); reflexivity.
Defined.

(** X3.  [RegisterAtomic] creates the slot and overwrites the primary
    value with the initial one; a later [Set] or [BatchSet] of the key is
    seen by [GetAtomic] and [Get] alike; a [Set] of a key without a slot
    creates none. *)
Theorem RegisterAtomic_roundtrip (key : string) (initial value : R)
    (updates : gmap string R) (pm : ParameterManager) :
  GetAtomic key (RegisterAtomic key initial pm) = (initial, true) ∧
  Get key (RegisterAtomic key initial pm) = (initial, true) ∧
  GetAtomic key (Set_ key value (RegisterAtomic key initial pm))
    = (value, true) ∧
  (updates !! key = Some value ->
   GetAtomic key (BatchSet updates (RegisterAtomic key initial pm))
     = (value, true)) ∧
  (atomicParams pm !! key = None ->
   GetAtomic key (Set_ key value pm) = (0, false)).
Proof.
  split; [unfold GetAtomic; cbn; by rewrite lookup_insert_eq|].
  split; [unfold Get; cbn; by rewrite lookup_insert_eq|].
  split; [|split].
  - unfold GetAtomic, Set_. cbn. rewrite lookup_insert_eq.
    by rewrite lookup_insert_eq.
  - intros Hu. unfold GetAtomic. rewrite BatchSet_atomicParams. cbn.
    by rewrite lookup_insert_eq, Hu.
  - intros Hn. unfold GetAtomic, Set_. cbn. by rewrite Hn, Hn.
Qed.

Lemma RegisterAtomic_roundtrip_witness :
  GetAtomic "cutoff"
    (BatchSet {["cutoff" := 880]}
       (RegisterAtomic "cutoff" 440 NewParameterManager)) = (880, true) ∧
  GetAtomic "gain" (Set_ "gain" 1 NewParameterManager) = (0, false).
Proof.
  destruct (RegisterAtomic_roundtrip "cutoff" 440 880 {["cutoff" := 880]}
              NewParameterManager) as (_ & _ & _ & Hb & _).
  destruct (RegisterAtomic_roundtrip "gain" 0 1 ∅ NewParameterManager)
    as (_ & _ & _ & _ & Hn).
  split; [apply Hb | apply Hn]; reflexivity.
Defined.

Lemma applyOp_slotsCoherent (op : Op) (pm : ParameterManager) :
  slotsCoherent pm -> slotsCoherent (applyOp op pm).
Proof.
  intros Hc. destruct op as [k v|k|k d|k d|k v|k|k r|u|];
    cbn [applyOp]; try exact Hc; intros key x.
  - unfold Set_. cbn [params atomicParams].
    destruct (decide (k = key)) as [->|Hne].
    + destruct (atomicParams pm !! key) eqn:Hk.
      * rewrite !lookup_insert_eq. done.
      * rewrite Hk. done.
    + rewrite (lookup_insert_ne (params pm)) by done.
      destruct (atomicParams pm !! k);
        [rewrite lookup_insert_ne by done|]; exact (Hc key x).
  - unfold GetSmoothed.
    destruct (smoothing pm !! k) as [s|]; [destruct (active s)|];
      exact (Hc key x).
  - unfold RegisterAtomic. cbn [params atomicParams].
    destruct (decide (k = key)) as [->|Hne].
    + by rewrite !lookup_insert_eq.
    + rewrite !lookup_insert_ne by done. exact (Hc key x).
  - rewrite BatchSet_atomicParams, BatchSet_params.
    destruct (atomicParams pm !! key) as [old|] eqn:Hold; [|done].
    destruct (u !! key) as [w|] eqn:Hu; cbn; intros [= <-].
    + by apply lookup_union_Some_l.
    + rewrite lookup_union_r by done. by apply Hc.
Qed.

(** X4.  Whatever sequence of calls a store has served since
    [NewParameterManager], every lock-free slot holds exactly the value of
    the primary record: [GetAtomic] never disagrees with [Get]. *)
Theorem slots_follow_primary (ops : list Op) (key : string) (v : R) :
  GetAtomic key (runOps ops NewParameterManager) = (v, true) ->
  Get key (runOps ops NewParameterManager) = (v, true).
Proof.
  assert (Hc : slotsCoherent (runOps ops NewParameterManager)).
  { unfold runOps. generalize NewParameterManager,
      (fun key v (H : atomicParams NewParameterManager !! key = Some v) =>
         H : params NewParameterManager !! key = Some v).
    induction ops as [|op ops IH]; intros pm Hpm; [exact Hpm|].
    cbn [foldl]. apply IH. by apply applyOp_slotsCoherent. }
  unfold GetAtomic, Get. intros H.
  destruct (atomicParams _ !! key) as [x|] eqn:Hx; [|discriminate].
  injection H as ->. by rewrite (Hc key v Hx).
Qed.

Lemma slots_follow_primary_witness :
  Get "cutoff"
    (runOps [OpRegisterAtomic "cutoff" 440; OpEnableSmoothing "cutoff" (1 / 2);
             OpBatchSet {["cutoff" := 880]}] NewParameterManager)
  = (880, true).
Proof. apply slots_follow_primary. reflexivity. Defined.

End StoreFacts.

(** ** Smoothers between calls *)

Section SmootherRest.
Import Params.

Lemma smoothStep_rest (s : ParameterSmoother) :
  active s = true ->
  active (smoothStep s) = false -> current (smoothStep s) = target (smoothStep s).
Proof.
  intros Ha. unfold smoothStep. cbn [current target rate active].
  destruct (Rlt_dec _ _); cbn [current target active]; [done | congruence].
Qed.

Lemma applyOp_smoothersAtRest (op : Op) (pm : ParameterManager) :
  smoothersAtRest pm -> smoothersAtRest (applyOp op pm).
Proof.
  intros Hc. destruct op as [k v|k|k d|k d|k v|k|k r|u|];
    cbn [applyOp]; try exact Hc; intros key s.
  - destruct (decide (k = key)) as [->|Hne].
    + destruct (smoothing pm !! key) as [s0|] eqn:Hk.
      * rewrite (Set_smoother _ _ _ _ Hk). intros [= <-]. discriminate.
      * unfold Set_. cbn [smoothing]. rewrite Hk, Hk. discriminate.
    + rewrite Set_smoother_other by done. exact (Hc key s).
  - unfold GetSmoothed.
    destruct (smoothing pm !! k) as [sk|] eqn:Hk;
      [destruct (active sk) eqn:Ha|]; cbn [snd smoothing];
      try exact (Hc key s).
    destruct (decide (k = key)) as [->|Hne].
    + rewrite lookup_insert_eq. intros [= <-]. by apply smoothStep_rest.
    + rewrite lookup_insert_ne by done. exact (Hc key s).
  - unfold EnableSmoothing. cbn [smoothing].
    destruct (decide (k = key)) as [->|Hne].
    + rewrite lookup_insert_eq. by intros [= <-].
    + rewrite lookup_insert_ne by done. exact (Hc key s).
  - rewrite BatchSet_smoothing. exact (Hc key s).
Qed.

(** X5.  Whatever sequence of calls a store has served since
    [NewParameterManager], a smoother that is not active has
    [current = target]: it was never activated or it has snapped. *)
Theorem inactive_smoother_at_target (ops : list Op) (key : string)
    (s : ParameterSmoother) :
  smoothing (runOps ops NewParameterManager) !! key = Some s ->
  active s = false -> current s = target s.
Proof.
  revert key s. change (smoothersAtRest (runOps ops NewParameterManager)).
  unfold runOps.
  assert (H0 : smoothersAtRest NewParameterManager)
    by (intros key s; cbn; by rewrite lookup_empty).
  revert H0. generalize NewParameterManager.
  induction ops as [|op ops IH]; intros pm Hpm; [exact Hpm|].
  cbn [foldl]. apply IH. by apply applyOp_smoothersAtRest.
Qed.

Lemma inactive_smoother_at_target_witness :
  smoothing (runOps [OpSet "cutoff" 440; OpEnableSmoothing "cutoff" 1;
                     OpBatchSet {["cutoff" := 880]}]
                    NewParameterManager) !! "cutoff"
    = Some (mkSmoother 440 440 1 false) ∧
  current (mkSmoother 440 440 1 false) = target (mkSmoother 440 440 1 false).
Proof.
  assert (H : smoothing
                (runOps [OpSet "cutoff" 440; OpEnableSmoothing "cutoff" 1;
                         OpBatchSet {["cutoff" := 880]}]
                        NewParameterManager) !! "cutoff"
              = Some (mkSmoother 440 440 1 false)).
  { cbn [runOps foldl applyOp]. rewrite BatchSet_smoothing. reflexivity. }
  split; [exact H|].
  exact (inactive_smoother_at_target _ "cutoff" _ H eq_refl).
Defined.

(** X6.  A value written by [BatchSet] is not smoothed: with a smoother
    attached by [EnableSmoothing] and not retargeted since, the next
    [GetSmoothed] returns the batch value at once, whatever the smoother
    holds, and changes nothing in the store. *)
Theorem BatchSet_bypasses_smoothing (key : string) (r d value : R)
    (updates : gmap string R) (pm : ParameterManager) :
  updates !! key = Some value ->
  let pm' := BatchSet updates (EnableSmoothing key r pm) in
  GetSmoothed key d pm' = (value, pm').
Proof.
  intros Hu pm'. unfold GetSmoothed.
  assert (Hs : smoothing pm' !! key =
               Some (mkSmoother (GetWithDefault key 0 pm)
                                (GetWithDefault key 0 pm) r false)).
  { unfold pm'. rewrite BatchSet_smoothing. unfold EnableSmoothing.
    cbn [smoothing]. by rewrite lookup_insert_eq. }
  rewrite Hs. cbn [active]. unfold GetWithDefault, Get.
  unfold pm'. rewrite BatchSet_params.
  by rewrite (lookup_union_Some_l _ _ _ _ Hu).
Qed.

Lemma BatchSet_bypasses_smoothing_witness :
  let pm' := BatchSet {["cutoff" := 880]}
               (EnableSmoothing "cutoff" (1 / 10)
                  (Set_ "cutoff" 440 NewParameterManager)) in
  GetSmoothed "cutoff" 0 pm' = (880, pm').
Proof.
  apply (BatchSet_bypasses_smoothing "cutoff" (1 / 10) 0 880
           {["cutoff" := 880]} (Set_ "cutoff" 440 NewParameterManager)).
  reflexivity.
Defined.

End SmootherRest.

(** ** The oscillators: ranges *)

Section OscillatorRanges.
Import Oscillators.

(** X7.  The noise generator: whatever the state, [randFloat64] returns a
    value in [0, 1) and leaves a state in the 64-bit range, so a noise
    sample [r * 2 - 1] lies in [-1, 1). *)
Theorem randFloat64_range (randState : Z) :
  0 <= (randFloat64 randState).1 < 1 ∧
  (0 <= (randFloat64 randState).2 < 2 ^ 64)%Z ∧
  -1 <= (randFloat64 randState).1 * 2 - 1 < 1.
Proof.
  unfold randFloat64. cbn [fst snd].
  set (s := ((randState * 6364136223846793005 + 1442695040888963407)
               mod 2 ^ 64)%Z).
  assert (Hs : (0 <= s < 2 ^ 64)%Z) by (apply Z.mod_pos_bound; lia).
  rewrite Z.shiftr_div_pow2 by lia.
  change (Z.shiftl 1 32) with 4294967296%Z.
  assert (Hq : (0 <= s / 2 ^ 32 <= 4294967295)%Z).
  { split; [apply Z.div_pos; lia|].
    assert (s / 2 ^ 32 < 4294967296)%Z; [|lia].
    apply Z.div_lt_upper_bound; lia. }
  destruct Hq as [Hq0 Hq1]. apply IZR_le in Hq0, Hq1.
  split; [|split; [exact Hs|]]; lra.
Qed.

Lemma waveform_range (o : Oscillator) (randState : Z) :
  canonical (Phase o) -> -1 <= (waveform o randState).1 <= 1.
Proof.
  intros [H0 H1]. assert (Hpi := PI_RGT_0). unfold waveform.
  destruct (Type_ o); cbn [fst].
  - pose proof (SIN_bound (Phase o)). lra.
  - assert (Hi : 0 < / (2 * PI)) by (apply Rinv_0_lt_compat; lra).
    assert (Hm : 2 * PI * / (2 * PI) = 1) by (apply Rinv_r; lra).
    unfold Rdiv. set (i := / (2 * PI)) in *. nra.
  - destruct (Rlt_dec (Phase o) PI); lra.
  - assert (Hi : 0 < / PI) by (apply Rinv_0_lt_compat; lra).
    assert (Hm : PI * / PI = 1) by (apply Rinv_r; lra).
    unfold Rdiv. set (i := / PI) in *.
    destruct (Rlt_dec (Phase o) PI); nra.
  - pose proof (randFloat64_range randState) as (_ & _ & Hr).
    destruct (randFloat64 randState) as [r rs']. cbn [fst] in *. lra.
Qed.

Lemma generateLoop_bounded (buffer : list R) (o : Oscillator)
    (randState : Z) :
  canonical (Phase o) -> 0 <= phaseInc o < 2 * PI ->
  length (generateLoop o randState buffer).1.2 = length buffer ∧
  Forall (fun y => Rabs y <= Rabs (Amplitude o))
         (generateLoop o randState buffer).1.2 ∧
  Amplitude (generateLoop o randState buffer).1.1 = Amplitude o ∧
  Type_ (generateLoop o randState buffer).1.1 = Type_ o.
Proof.
  revert o randState.
  induction buffer as [|x rest IH]; intros o rs Hp Hi; cbn [generateLoop].
  - cbn [fst snd]. split; [done|]. split; [constructor | by split].
  - unfold generateSample. pose proof (waveform_range o rs Hp) as Hw.
    destruct (waveform o rs) as [sample rs1]. cbn [fst] in Hw.
    destruct (IH (advancePhase o) rs1 (advancePhase_canonical o Hp Hi) Hi)
      as (Hlen & Hall & Ha & Ht).
    destruct (generateLoop (advancePhase o) rs1 rest) as [[o2 outs] rs2].
    cbn [fst snd] in *. split; [cbn; by rewrite Hlen|].
    split; [|by split].
    constructor; [|exact Hall].
    rewrite Rabs_mult.
    assert (Rabs sample <= 1) by (apply Rabs_le; lra).
    pose proof (Rabs_pos (Amplitude o)). nra.
Qed.

Lemma refreshFrequency_range (o : Oscillator)
    (pm : Params.ParameterManager) :
  incrementInRange o pm ->
  0 <= phaseInc (refreshFrequency o pm) < 2 * PI ∧
  Phase (refreshFrequency o pm) = Phase o ∧
  Amplitude (refreshFrequency o pm) = Amplitude o ∧
  Type_ (refreshFrequency o pm) = Type_ o.
Proof.
  unfold incrementInRange, refreshFrequency, Params.Get.
  destruct (Params.params pm !! "osc1_frequency") as [v|]; intros Hv;
    [|split; [exact Hv | by repeat split]].
  cbn [phaseInc Phase Amplitude Type_]. split; [|by repeat split].
  assert (Hpi := PI_RGT_0). unfold SampleRate, Rdiv.
  split; [apply Rmult_le_pos; [nra | lra]|].
  apply (Rmult_lt_reg_r 44100); [lra|]. field_simplify. nra.
Qed.

(** X8.  From a phase in [0, 2π), with the stored frequency in
    [0, 44100) (or, when the store has none, an increment in [0, 2π)),
    [Generate] fills exactly the buffer it is given and every sample it
    writes has magnitude at most the magnitude of the amplitude, for every
    waveform, noise included. *)
Theorem Generate_output_bounded (o : Oscillator) (buffer : list R)
    (pm : Params.ParameterManager) (randState : Z) :
  canonical (Phase o) -> incrementInRange o pm ->
  length (Generate o buffer pm randState).1.2 = length buffer ∧
  Forall (fun y => Rabs y <= Rabs (Amplitude o))
         (Generate o buffer pm randState).1.2.
Proof.
  intros Hp Hi. unfold Generate.
  destruct (refreshFrequency_range o pm Hi) as (Hinc & Hph & Ha & _).
  destruct (generateLoop_bounded buffer (refreshFrequency o pm) randState)
    as (Hlen & Hall & _); [by rewrite Hph | exact Hinc |].
  split; [exact Hlen|]. by rewrite <- Ha.
Qed.

Lemma defaultOscillator_in_range :
  canonical (Phase (NewOscillator OscSine 440 (3 / 10))) ∧
  incrementInRange (NewOscillator OscSine 440 (3 / 10))
                   (Params.Set_ "osc1_frequency" 660
                      Params.NewParameterManager).
Proof.
  assert (Hpi := PI_RGT_0). split.
  - unfold canonical. cbn [NewOscillator Phase]. lra.
  - unfold incrementInRange.
    replace (Params.params
               (Params.Set_ "osc1_frequency" 660 Params.NewParameterManager)
             !! "osc1_frequency") with (Some 660) by reflexivity.
    lra.
Qed.

Lemma Generate_output_bounded_witness :
  Forall (fun y => Rabs y <= Rabs (3 / 10))
    (Generate (NewOscillator OscSine 440 (3 / 10)) [0; 0; 0]
       (Params.Set_ "osc1_frequency" 660 Params.NewParameterManager)
       randState0).1.2.
Proof.
  destruct defaultOscillator_in_range as [Hp Hi].
  exact (proj2 (Generate_output_bounded _ [0; 0; 0] _ randState0 Hp Hi)).
Defined.

(** X9.  Under the same conditions the phase accumulator is back in
    [0, 2π) when [Generate] returns, whatever the buffer length (so after
    every sample), and the waveform and the amplitude are untouched. *)
Theorem Generate_phase_canonical (o : Oscillator) (buffer : list R)
    (pm : Params.ParameterManager) (randState : Z) :
  canonical (Phase o) -> incrementInRange o pm ->
  let o' := (Generate o buffer pm randState).1.1 in
  canonical (Phase o') ∧
  Amplitude o' = Amplitude o ∧ Type_ o' = Type_ o.
Proof.
  intros Hp Hi o'. unfold o', Generate.
  destruct (refreshFrequency_range o pm Hi) as (Hinc & Hph & Ha & Ht).
  assert (Hp' : canonical (Phase (refreshFrequency o pm)))
    by (by rewrite Hph).
  split; [by apply generateLoop_canonical|].
  destruct (generateLoop_bounded buffer (refreshFrequency o pm) randState
              Hp' Hinc) as (_ & _ & Ha' & Ht').
  split; congruence.
Qed.

Lemma Generate_phase_canonical_witness :
  canonical
    (Phase (Generate (NewOscillator OscSine 440 (3 / 10)) [0; 0; 0]
              (Params.Set_ "osc1_frequency" 660 Params.NewParameterManager)
              randState0).1.1).
Proof.
  destruct defaultOscillator_in_range as [Hp Hi].
  exact (proj1 (Generate_phase_canonical _ [0; 0; 0] _ randState0 Hp Hi)).
Defined.

End OscillatorRanges.

(** ** The biquad filter: output range, steady state, clamping, reset *)

Section FilterBehaviour.
Import Filters.

Lemma processLoop_length (buffer : list R) (f : Filter) :
  length (processLoop f buffer).2 = length buffer.
Proof.
  revert f. induction buffer as [|x0 rest IH]; intros f; [done|].
  cbn [processLoop]. unfold processSample.
  specialize (IH (setHistory f x0 (x1 f) (biquad f x0) (y1 f))).
  destruct (processLoop _ rest) as [f2 outs]. cbn [snd length] in *.
  by rewrite IH.
Qed.

(** X10.  Whatever the filter, the store and the input, [Process] returns
    as many samples as it was given and each of them lies in [-1, 1]. *)
Theorem Process_output_clipped (f : Filter) (buffer : list R)
    (pm : Params.ParameterManager) :
  length (Process f buffer pm).2 = length buffer ∧
  Forall (fun y => -1 <= y <= 1) (Process f buffer pm).2.
Proof.
  unfold Process. split; [apply processLoop_length|].
  apply processLoop_clipped.
Qed.

Lemma alphaOf_pos (f : Filter) :
  0 < Frequency f < 22050 -> 0 < alphaOf f.
Proof.
  intros Hf.
  assert (Hw : 0 < omegaOf f < PI).
  { unfold omegaOf, SampleRate. pose proof PI_RGT_0. split.
    - apply Rdiv_lt_0_compat; nra.
    - apply (Rmult_lt_reg_r 44100); [lra|].
      replace (2 * PI * Frequency f / 44100 * 44100)
        with (2 * PI * Frequency f) by (field; lra).
      nra. }
  pose proof (sin_gt_0 _ (proj1 Hw) (proj2 Hw)) as Hsin.
  pose proof (clampQ_range (Resonance f)) as Hq.
  unfold alphaOf. apply Rdiv_lt_0_compat; lra.
Qed.

(** X11.  Response to a constant input, for a frequency strictly between
    0 and half the sample rate and any resonance.  Once the histories have
    settled, the low-pass and the notch filter return the constant itself
    (unit gain at zero frequency) and the high-pass and the band-pass
    filter return zero (they block it). *)
Theorem constant_input_response (f : Filter) (c : R) :
  0 < Frequency f < 22050 ->
  let f' := updateCoefficients f in
  match Type_ f with
  | FilterLowPass | FilterNotch => biquad (setHistory f' c c c c) c = c
  | FilterHighPass | FilterBandPass => biquad (setHistory f' c c 0 0) c = 0
  end.
Proof.
  intros Hf f'. pose proof (alphaOf_pos f Hf) as Ha.
  unfold f', updateCoefficients, normalize, rawCoefficients, biquad.
  destruct (Type_ f);
    cbn [setHistory setCoefficients a0 a1 a2 b0 b1 b2 x1 x2 y1 y2];
    field; lra.
Qed.

Lemma constant_input_response_witness :
  biquad (setHistory (NewLowPassFilter 1000 (7 / 10)) 1 1 1 1) 1 = 1.
Proof.
  apply (constant_input_response
           (mkFilter FilterLowPass 1000 (7 / 10) 0 0 0 0 0 0 0 0 0 0) 1).
  cbn [Frequency]. lra.
Defined.

Lemma clampQ_idempotent (q : R) : clampQ (clampQ q) = clampQ q.
Proof. apply clampQ_inside, clampQ_range. Qed.

(** X12.  The resonance reaches the coefficients only through its clamp
    into [0.1, 10]: a filter whose resonance is below 0.1 (zero and
    negative values included) or above 10 gets exactly the coefficients of
    the clamped value, and the divisor [2 * q] of alpha is at least 0.2. *)
Theorem resonance_is_clamped (f : Filter) (q : R) :
  let g := updateCoefficients (setResonance f q) in
  let h := updateCoefficients (setResonance f (clampQ q)) in
  (a0 g, a1 g, a2 g, b0 g, b1 g, b2 g) = (a0 h, a1 h, a2 h, b0 h, b1 h, b2 h) ∧
  1 / 5 <= 2 * clampQ q ∧
  (q <= 1 / 10 -> clampQ q = 1 / 10) ∧ (10 <= q -> clampQ q = 10).
Proof.
  intros g h. split; [|split; [|split]].
  - unfold g, h, updateCoefficients, normalize, rawCoefficients, alphaOf,
      omegaOf.
    cbn [setResonance Type_ Frequency Resonance].
    rewrite clampQ_idempotent. by destruct (Type_ f).
  - pose proof (clampQ_range q). lra.
  - intros Hq. unfold clampQ.
    destruct (Rlt_dec q (1 / 10)); destruct (Rgt_dec _ 10); lra.
  - intros Hq. unfold clampQ.
    destruct (Rlt_dec q (1 / 10)); destruct (Rgt_dec _ 10); lra.
Qed.

Lemma clip_zero : clip 0 = 0.
Proof.
  unfold clip. destruct (Rgt_dec 0 1); [lra|].
  destruct (Rlt_dec 0 (-1)); [lra | done].
Qed.

Lemma processLoop_rest (n : nat) (f : Filter) :
  processLoop (Reset f) (replicate n 0) = (Reset f, replicate n 0).
Proof.
  induction n as [|n IH]; [done|].
  cbn [replicate processLoop]. unfold processSample.
  replace (biquad (Reset f) 0) with 0
    by (unfold biquad, Reset; cbn [setHistory b0 b1 b2 a1 a2 x1 x2 y1 y2];
        ring).
  rewrite clip_zero.
  replace (setHistory (Reset f) 0 (x1 (Reset f)) 0 (y1 (Reset f)))
    with (Reset f) by reflexivity.
  by rewrite IH.
Qed.


(** X14.  Deriving the coefficients again changes nothing: the
    coefficients are a function of the type, the frequency and the
    resonance alone, so the refresh [Process] makes on every buffer does
    not drift; and the derivation never touches the history. *)
Theorem updateCoefficients_idempotent (f : Filter) :
  updateCoefficients (updateCoefficients f) = updateCoefficients f ∧
  (x1 (updateCoefficients f), x2 (updateCoefficients f),
   y1 (updateCoefficients f), y2 (updateCoefficients f))
    = (x1 f, x2 f, y1 f, y2 f).
Proof.
  split.
  - unfold updateCoefficients, normalize, rawCoefficients, alphaOf, omegaOf.
    destruct f as [t fr re ? ? ? ? ? ? ? ? ? ?]. by destruct t.
  - unfold updateCoefficients, normalize, rawCoefficients.
    by destruct (Type_ f).
Qed.

End FilterBehaviour.

(** ** The effects: no panic, dry pass, reset *)

Section EffectTotality.
Import Effects.

Lemma sameSettings_refl (e : Effect) : sameSettings e e.
Proof. by repeat split. Qed.

Lemma sameSettings_trans (e1 e2 e3 : Effect) :
  sameSettings e1 e2 -> sameSettings e2 e3 -> sameSettings e1 e3.
Proof.
  intros (A1 & A2 & A3 & A4) (B1 & B2 & B3 & B4).
  repeat split; congruence.
Qed.

Lemma blend_dry (e : Effect) (x wet : R) : Mix e = 0 -> blend e x wet = x.
Proof. intros H. unfold blend. rewrite H. ring. Qed.

Lemma sliceSet_inside (l : list R) (i : Z) (v : R) :
  (0 <= i < Z.of_nat (length l))%Z ->
  sliceSet l i v = Some (<[Z.to_nat i := v]> l).
Proof.
  intros Hi. unfold sliceSet.
  destruct (Z.leb_spec 0 i); [|lia].
  destruct (Z.ltb_spec i (Z.of_nat (length l))); [done | lia].
Qed.

Lemma delaySample_total (e : Effect) (D : Z) (f x : R) :
  indexInside e -> (D < len (delayLine e))%Z ->
  ∃ e' wet, delaySample e D f x = Some (e', blend e x wet) ∧
            indexInside e' ∧ sameSettings e e'.
Proof.
  intros Hidx HD. unfold indexInside, delaySample, len in *.
  destruct (goRem_range (delayIndex e - D + Z.of_nat (length (delayLine e)))
                        (Z.of_nat (length (delayLine e))))
    as (r & -> & Hr); [lia | lia |].
  cbn [mbind option_bind]. rewrite sliceGet_nat.
  destruct (lookup_lt_is_Some_2 (delayLine e) r) as [wet ->]; [lia|].
  cbn [mbind option_bind].
  rewrite sliceSet_inside by lia. cbn [mbind option_bind].
  destruct (goRem_range (delayIndex e + 1)
                        (Z.of_nat (length (delayLine e))))
    as (i' & -> & Hi'); [lia | lia |].
  cbn [mbind option_bind]. eexists _, wet. split; [reflexivity|].
  cbn [setDelayState delayIndex delayLine]. rewrite length_insert.
  split; [lia|]. repeat split. cbn. by rewrite length_insert.
Qed.

Lemma delayLoop_total (buffer : list R) :
  ∀ (e : Effect) (D : Z) (f : R),
    indexInside e -> (D < len (delayLine e))%Z ->
    ∃ e' out, delayLoop e D f buffer = Some (e', out) ∧
              indexInside e' ∧ sameSettings e e' ∧
              length out = length buffer ∧ (Mix e = 0 -> out = buffer).
Proof.
  induction buffer as [|x rest IH]; intros e D f Hidx HD.
  - exists e, []. split; [done|]. split; [exact Hidx|].
    split; [apply sameSettings_refl | by split].
  - destruct (delaySample_total e D f x Hidx HD)
      as (e1 & wet & Hs & Hidx1 & Hsame1).
    destruct (IH e1 D f Hidx1) as (e2 & outs & Hl & Hidx2 & Hsame2 & Hlen & Hdry).
    { destruct Hsame1 as (_ & _ & _ & Hlen1). unfold len. rewrite Hlen1.
      exact HD. }
    exists e2, (blend e x wet :: outs). cbn [delayLoop]. rewrite Hs.
    cbn [mbind option_bind]. rewrite Hl. cbn [mbind option_bind].
    split; [done|]. split; [done|].
    split; [by eapply sameSettings_trans|].
    split; [cbn; by rewrite Hlen|].
    intros Hm. rewrite (blend_dry _ _ _ Hm). f_equal. apply Hdry.
    destruct Hsame1 as (_ & -> & _). exact Hm.
Qed.

Lemma chorusSample_total (e : Effect) (x : R) :
  indexInside e ->
  ∃ e' wet, chorusSample e x = Some (e', blend e x wet) ∧
            indexInside e' ∧ sameSettings e e'.
Proof.
  intros Hidx. unfold indexInside in *.
  set (ds := modulatedDelay e (sin (lfoPhase e)
                               * readParam (Parameters e) "depth")).
  destruct (Z_lt_le_dec (trunc ds) (len (delayLine e) - 1)) as [Hlt|Hge].
  - destruct (chorusRead_total (delayLine e) (delayIndex e) ds Hidx Hlt)
      as [delayed Hread].
    rewrite (chorusSample_process e x delayed Hlt Hidx Hread).
    eexists _, delayed. split; [reflexivity|].
    cbn [setDelayState delayIndex delayLine]. unfold len.
    rewrite length_insert. fold (len (delayLine e)).
    split; [apply Z.rem_bound_pos; lia|].
    repeat split. cbn. by rewrite length_insert.
  - rewrite (chorusSample_bypass e x Hge).
    exists (lfoStep e).2, x. split.
    + do 2 f_equal. unfold blend. ring.
    + split; [exact Hidx | by repeat split].
Qed.

Lemma chorusLoop_total (buffer : list R) :
  ∀ e : Effect,
    indexInside e ->
    ∃ e' out, chorusLoop e buffer = Some (e', out) ∧
              indexInside e' ∧ sameSettings e e' ∧
              length out = length buffer ∧ (Mix e = 0 -> out = buffer).
Proof.
  induction buffer as [|x rest IH]; intros e Hidx.
  - exists e, []. split; [done|]. split; [exact Hidx|].
    split; [apply sameSettings_refl | by split].
  - destruct (chorusSample_total e x Hidx)
      as (e1 & wet & Hs & Hidx1 & Hsame1).
    destruct (IH e1 Hidx1) as (e2 & outs & Hl & Hidx2 & Hsame2 & Hlen & Hdry).
    exists e2, (blend e x wet :: outs). cbn [chorusLoop]. rewrite Hs.
    cbn [mbind option_bind]. rewrite Hl. cbn [mbind option_bind].
    split; [done|]. split; [done|].
    split; [by eapply sameSettings_trans|].
    split; [cbn; by rewrite Hlen|].
    intros Hm. rewrite (blend_dry _ _ _ Hm). f_equal. apply Hdry.
    destruct Hsame1 as (_ & -> & _). exact Hm.
Qed.

Lemma bitCrusherLoop_total (buffer : list R) :
  ∀ (e : Effect) (stepSize : R) (holdPeriod : Z),
    sameSettings e (bitCrusherLoop e stepSize holdPeriod buffer).1 ∧
    delayIndex (bitCrusherLoop e stepSize holdPeriod buffer).1 = delayIndex e ∧
    length (bitCrusherLoop e stepSize holdPeriod buffer).2 = length buffer ∧
    (Mix e = 0 -> (bitCrusherLoop e stepSize holdPeriod buffer).2 = buffer).
Proof.
  induction buffer as [|x rest IH]; intros e st hp.
  - cbn. by repeat split.
  - cbn [bitCrusherLoop]. unfold bitCrusherSample.
    set (e1 := if (holdCount e =? 0)%Z then setHold e x hp else e).
    set (e2 := setHold e1 (sampleHold e1) (holdCount e1 - 1)).
    assert (Hs : sameSettings e e2 ∧ delayIndex e2 = delayIndex e).
    { unfold e2, e1. destruct (holdCount e =? 0)%Z; by repeat split. }
    destruct Hs as [Hs Hi].
    destruct (IH e2 st hp) as (Hs2 & Hi2 & Hlen & Hdry).
    destruct (bitCrusherLoop e2 st hp rest) as [e3 outs].
    cbn [fst snd] in *.
    split; [by eapply sameSettings_trans|]. split; [congruence|].
    split; [cbn; by rewrite Hlen|].
    intros Hm. assert (Hm2 : Mix e2 = 0)
      by (destruct Hs as (_ & -> & _); exact Hm).
    rewrite (blend_dry _ _ _ Hm2). f_equal. by apply Hdry.
Qed.

Lemma NewEffect_wellFormed (t : EffectType) : wellFormed (NewEffect t).
Proof.
  destruct t; unfold wellFormed; cbn [NewEffect Type_ setParameter
    setDelayState]; try exact I; unfold indexInside, len;
    cbn [delayIndex delayLine setParameter setDelayState];
    rewrite length_replicate.
  - change (Z.of_nat (Z.to_nat SampleRate)) with 44100%Z. lia.
  - change (Z.of_nat (Z.to_nat (Z.quot SampleRate 10))) with 4410%Z. lia.
Qed.

Lemma Process_total_dry (e : Effect) (buffer : list R)
    (pm : Params.ParameterManager) :
  wellFormed e ->
  ∃ e' out, Process e buffer pm = Some (e', out) ∧
            wellFormed e' ∧ sameSettings e e' ∧
            length out = length buffer ∧ (Mix e = 0 -> out = buffer).
Proof.
  unfold wellFormed, Process. intros Hwf.
  destruct (Type_ e) eqn:Ht.
  - destruct (delayLoop_total buffer e (delaySamplesOf e)
                (readParam (Parameters e) "feedback") Hwf)
      as (e' & out & Hl & Hidx & Hsame & Hlen & Hdry).
    { apply delaySamplesOf_lt. unfold indexInside in Hwf. lia. }
    exists e', out. split; [exact Hl|].
    destruct Hsame as (Ht' & Hrest). rewrite Ht', Ht.
    split; [exact Hidx|]. split; [|by split].
    split; [congruence | exact Hrest].
  - exists e, buffer. rewrite Ht. split; [done|]. split; [done|].
    split; [apply sameSettings_refl | by split].
  - exists e, (map (distortionSample e (readParam (Parameters e) "drive")
                                      (readParam (Parameters e) "level"))
                   buffer).
    rewrite Ht. split; [done|]. split; [done|].
    split; [apply sameSettings_refl|].
    split; [apply length_map|]. intros Hm.
    induction buffer as [|x rest IH]; [done|]. cbn [map]. f_equal; [|exact IH].
    unfold distortionSample. by apply blend_dry.
  - destruct (chorusLoop_total buffer e Hwf)
      as (e' & out & Hl & Hidx & Hsame & Hlen & Hdry).
    exists e', out. split; [exact Hl|].
    destruct Hsame as (Ht' & Hrest). rewrite Ht', Ht.
    split; [exact Hidx|]. split; [|by split].
    split; [congruence | exact Hrest].
  - unfold processBitCrusher.
    destruct (bitCrusherLoop_total buffer e
                (2 / Rpower 2 (readParam (Parameters e) "bits"))
                (trunc (1 / readParam (Parameters e) "sampleRate")))
      as (Hsame & _ & Hlen & Hdry).
    destruct (bitCrusherLoop e _ _ buffer) as [e' out]. cbn [fst snd] in *.
    exists e', out. split; [done|].
    destruct Hsame as (Ht' & Hrest). rewrite Ht', Ht.
    split; [done|]. split; [|by split].
    split; [congruence | exact Hrest].
Qed.

(** X15.  An effect whose line is not empty and whose write index lies
    inside it (every effect [NewEffect] builds, whatever is then stored in
    its parameters or mix) is processed without panic for every buffer and
    every parameter value: [Process] returns as many samples as it was
    given, leaves the type, mix, parameters and line length as they were,
    and the effect it leaves is again fit for the next call. *)
Theorem Process_never_panics (e : Effect) (buffer : list R)
    (pm : Params.ParameterManager) :
  wellFormed e ->
  ∃ e' out, Process e buffer pm = Some (e', out) ∧
            length out = length buffer ∧
            wellFormed e' ∧ sameSettings e e'.
Proof.
  intros Hwf.
  destruct (Process_total_dry e buffer pm Hwf)
    as (e' & out & Hp & Hwf' & Hsame & Hlen & _).
  by exists e', out.
Qed.

Lemma Process_never_panics_witness :
  ∃ e' out,
    Process (setParameter (NewEffect EffectChorus) "delay" (-3)) [1; 2; 3]
            Params.NewParameterManager = Some (e', out) ∧
    length out = 3%nat.
Proof.
  destruct (Process_never_panics
              (setParameter (NewEffect EffectChorus) "delay" (-3)) [1; 2; 3]
              Params.NewParameterManager
              (NewEffect_wellFormed EffectChorus))
    as (e' & out & Hp & Hlen & _).
  by exists e', out.
Defined.





End EffectTotality.

(** ** The delay effect without feedback *)

Section DelayShift.
Import Effects.

Lemma delayLoop_shift (D : nat) (rest : list R) :
  ∀ (pre : list R) (e : Effect) (i : nat),
    Mix e = 1 ->
    delayIndex e = Z.of_nat i -> (i < length (delayLine e))%nat ->
    (1 <= D < length (delayLine e))%nat ->
    view (delayLine e) i =
      drop (length pre) (replicate (length (delayLine e)) 0 ++ pre) ->
    ∃ e', delayLoop e (Z.of_nat D) 0 rest =
          Some (e', map (fun t =>
                           default 0
                             ((replicate (length (delayLine e)) 0
                               ++ pre ++ rest)
                              !! (t + length (delayLine e) - D)%nat))
                        (seq (length pre) (length rest))).
Proof.
  induction rest as [|x rest IH]; intros pre e i Hmix Hidx Hi HD Hview.
  - exists e. reflexivity.
  - destruct (delaySample_view e D i (length pre) 0 x pre Hidx Hi HD Hview
                eq_refl)
      as (r & line' & i' & Hr & Hstep & Hi' & Hlen' & Hview').
    replace (x + r * 0) with x in Hview' by ring.
    destruct (IH (pre ++ [x]) (setDelayState e line' (Z.of_nat i')) i')
      as [e' He']; cbn [Mix delayIndex delayLine setDelayState];
      rewrite ?Hlen'; try done.
    { rewrite length_app. cbn [length].
      replace (length pre + 1)%nat with (S (length pre)) by lia.
      exact Hview'. }
    exists e'. cbn [delayLoop]. rewrite Hstep. cbn [mbind option_bind].
    cbn [setDelayState delayLine] in He'. rewrite Hlen' in He'.
    rewrite length_app in He'. cbn [length] in He'.
    replace (length pre + 1)%nat with (S (length pre)) in He' by lia.
    rewrite <- (app_assoc pre [x] rest) in He'. cbn [app] in He'.
    rewrite He'. cbn [mbind option_bind length seq map]. do 3 f_equal.
    unfold blend. rewrite Hmix.
    rewrite (app_assoc (replicate _ 0)), lookup_app_l, Hr.
    + cbn. ring.
    + rewrite length_app, length_replicate. lia.
Qed.

(** X18.  With the feedback at 0 and [Mix] at 1 the delay effect is a pure
    shift: from a line of zeros and a delay [D] of at least one sample,
    the output is the input moved [D] samples later behind [D] zeros, cut
    to the length of the buffer. *)
Theorem delay_without_feedback_shifts (e : Effect) (L : nat)
    (buffer : list R) (pm : Params.ParameterManager) :
  Type_ e = EffectDelay -> Mix e = 1 ->
  readParam (Parameters e) "feedback" = 0 ->
  delayLine e = replicate L 0 ->
  (0 <= delayIndex e < Z.of_nat L)%Z ->
  (1 <= delaySamplesOf e)%Z ->
  ∃ e', Process e buffer pm =
        Some (e', take (length buffer)
                    (replicate (Z.to_nat (delaySamplesOf e)) 0 ++ buffer)).
Proof.
  intros Ht Hmix Hf Hline Hidx HD.
  assert (HlenL : length (delayLine e) = L)
    by (by rewrite Hline, length_replicate).
  pose proof (delaySamplesOf_lt e) as Hlt. unfold len in Hlt.
  rewrite HlenL in Hlt. specialize (Hlt ltac:(lia)).
  set (D := Z.to_nat (delaySamplesOf e)).
  assert (E : delaySamplesOf e = Z.of_nat D) by (unfold D; lia).
  destruct (delayLoop_shift D buffer [] e (Z.to_nat (delayIndex e)) Hmix)
    as [e' He']; rewrite ?HlenL; try lia.
  { rewrite Hline, view_zeros by lia. cbn [length drop].
    by rewrite app_nil_r. }
  exists e'. unfold Process. rewrite Ht. unfold processDelay.
  rewrite Hf, E, He'. f_equal. f_equal. rewrite HlenL. cbn [length app].
  apply list_eq. intros t.
  destruct (decide (t < length buffer)%nat) as [Hlt'|Hge].
  - rewrite list_lookup_fmap, lookup_seq_lt by lia. cbn.
    rewrite lookup_take_lt by lia.
    destruct (decide (t < D)%nat) as [HtD|HtD].
    + rewrite lookup_app_l by (rewrite length_replicate; lia).
      rewrite lookup_replicate_2 by lia.
      rewrite (lookup_app_l (replicate D 0))
        by (rewrite length_replicate; lia).
      by rewrite lookup_replicate_2 by lia.
    + rewrite lookup_app_r by (rewrite length_replicate; lia).
      rewrite (lookup_app_r (replicate D 0))
        by (rewrite length_replicate; lia).
      rewrite !length_replicate.
      replace (t + L - D - L)%nat with (t - D)%nat by lia.
      destruct (lookup_lt_is_Some_2 buffer (t - D)) as [v ->]; [lia|]. done.
  - rewrite lookup_ge_None_2
      by (rewrite length_map, length_seq; lia).
    symmetry. apply lookup_ge_None_2. rewrite length_take. lia.
Qed.

Lemma delay_without_feedback_shifts_witness :
  let e := setMix (setParameter
                     (setParameter (NewEffect EffectDelay) "time" (1 / 10000))
                     "feedback" 0) 1 in
  ∃ e', Process e [1; 2; 3; 4; 5; 6] Params.NewParameterManager =
        Some (e', [0; 0; 0; 0; 1; 2]).
Proof.
  intros e.
  assert (HL : delayLine e = replicate (Z.to_nat SampleRate) 0)
    by reflexivity.
  assert (HD : delaySamplesOf e = 4%Z).
  { unfold delaySamplesOf. rewrite HL. unfold len.
    rewrite length_replicate.
    replace (readParam (Parameters e) "time") with (1 / 10000)
      by reflexivity.
    rewrite (trunc_between _ 4) by (unfold SampleRate; lra).
    reflexivity. }
  destruct (delay_without_feedback_shifts e (Z.to_nat SampleRate)
              [1; 2; 3; 4; 5; 6] Params.NewParameterManager)
    as [e' He']; try reflexivity; try exact HL.
  - split; reflexivity.
  - rewrite HD. lia.
  - exists e'. rewrite He', HD. reflexivity.
Defined.

End DelayShift.

(** ** Distortion and bit crusher *)

Section Shapers.
Import Effects.

Lemma tanh_bound (x : R) : Rabs (tanh x) < 1.
Proof.
  unfold tanh, sinh, cosh.
  pose proof (exp_pos x) as Ha. pose proof (exp_pos (- x)) as Hb.
  set (a := exp x) in *. set (b := exp (- x)) in *.
  assert (Hi : 0 < / ((a + b) / 2)) by (apply Rinv_0_lt_compat; lra).
  assert (Hm : (a + b) / 2 * / ((a + b) / 2) = 1) by (apply Rinv_r; lra).
  unfold Rdiv at 1. set (i := / ((a + b) / 2)) in *.
  assert (H1 : 0 < b * i) by (apply Rmult_lt_0_compat; lra).
  assert (H2 : 0 < a * i) by (apply Rmult_lt_0_compat; lra).
  apply Rabs_def1; lra.
Qed.

(** X19.  Distortion keeps no state and bounds its output: for a mix in
    [0, 1] every output sample has magnitude at most
    [(1 - Mix) * |input| + Mix * |level|], whatever the drive; at full wet
    mix the output never exceeds the level. *)
Theorem distortion_output_bound (e : Effect) (buffer : list R)
    (pm : Params.ParameterManager) :
  Type_ e = EffectDistortion -> 0 <= Mix e <= 1 ->
  ∃ out, Process e buffer pm = Some (e, out) ∧
         Forall2 (fun x y =>
                    Rabs y <= (1 - Mix e) * Rabs x
                              + Mix e * Rabs (readParam (Parameters e) "level"))
                 buffer out.
Proof.
  intros Ht Hm. eexists. unfold Process. rewrite Ht. unfold processDistortion.
  split; [reflexivity|].
  induction buffer as [|x rest IH]; cbn [map]; constructor; [|exact IH].
  unfold distortionSample, blend.
  set (lv := readParam (Parameters e) "level").
  set (th := tanh (x * readParam (Parameters e) "drive")).
  pose proof (tanh_bound (x * readParam (Parameters e) "drive")) as Hth.
  fold th in Hth.
  eapply Rle_trans; [apply Rabs_triang|].
  rewrite !Rabs_mult.
  rewrite (Rabs_right (1 - Mix e)), (Rabs_right (Mix e)) by lra.
  pose proof (Rabs_pos x). pose proof (Rabs_pos lv). pose proof (Rabs_pos th).
  assert (Rabs th * Rabs lv <= Rabs lv) by nra.
  nra.
Qed.

Lemma distortion_output_bound_witness :
  ∃ out, Process (NewEffect EffectDistortion) [1; -2] Params.NewParameterManager
         = Some (NewEffect EffectDistortion, out) ∧
         length out = 2%nat.
Proof.
  destruct (distortion_output_bound (NewEffect EffectDistortion) [1; -2]
              Params.NewParameterManager eq_refl)
    as (out & Hp & Hall).
  - change (Mix (NewEffect EffectDistortion)) with (1 / 2). lra.
  - exists out. split; [exact Hp|].
    symmetry. exact (Forall2_length _ _ _ Hall).
Defined.

Lemma Int_part_nonneg (q : R) : 0 <= q -> (0 <= Int_part q)%Z.
Proof.
  intros Hq. destruct (base_Int_part q) as [_ H].
  assert (-1 < IZR (Int_part q)) by lra.
  assert (- 1 < Int_part q)%Z by (apply lt_IZR; lra). lia.
Qed.

(** X20.  The quantiser of the bit crusher, for a positive step (the step
    [2 / 2^bits] of [processBitCrusher] is positive for every [bits]):
    the result is a whole multiple of the step, lies between zero and the
    input (rounding toward zero, never past it) and is less than one step
    away from the input. *)
Theorem quantize_toward_zero (stepSize x : R) :
  0 < stepSize ->
  (∃ k : Z, quantize stepSize x = IZR k * stepSize) ∧
  Rabs (quantize stepSize x) <= Rabs x ∧
  0 <= x * quantize stepSize x ∧
  Rabs (x - quantize stepSize x) < stepSize ∧
  ∀ bits, 0 < 2 / Rpower 2 bits.
Proof.
  intros Hs.
  assert (Hx : x / stepSize * stepSize = x) by (field; lra).
  assert (Hbits : ∀ bits, 0 < 2 / Rpower 2 bits).
  { intros bits. apply Rdiv_lt_0_compat; [lra|]. unfold Rpower.
    apply exp_pos. }
  unfold quantize. destruct (Rgt_dec x 0) as [Hpos|Hneg].
  - unfold floorR. set (q := x / stepSize) in *.
    assert (Hq : 0 < q) by (unfold q; apply Rdiv_lt_0_compat; lra).
    destruct (base_Int_part q) as [Hlo Hhi].
    pose proof (Int_part_nonneg q ltac:(lra)) as Hk. apply IZR_le in Hk.
    set (k := IZR (Int_part q)) in *.
    assert (H1 : k * stepSize <= q * stepSize)
      by (apply Rmult_le_compat_r; lra).
    assert (H2 : (q - k) * stepSize < 1 * stepSize)
      by (apply Rmult_lt_compat_r; lra).
    assert (H3 : 0 <= k * stepSize) by (apply Rmult_le_pos; lra).
    split; [by eexists|].
    split; [rewrite !Rabs_right by lra; lra|].
    split; [apply Rmult_le_pos; lra|].
    split; [rewrite Rabs_right by lra; lra | exact Hbits].
  - unfold ceilR. rewrite opp_IZR. set (q := x / stepSize) in *.
    assert (Hq : q <= 0).
    { unfold q, Rdiv.
      assert (0 < / stepSize) by (apply Rinv_0_lt_compat; lra). nra. }
    destruct (base_Int_part (- q)) as [Hlo Hhi].
    pose proof (Int_part_nonneg (- q) ltac:(lra)) as Hk. apply IZR_le in Hk.
    set (k := IZR (Int_part (- q))) in *.
    assert (H1 : k * stepSize <= - q * stepSize)
      by (apply Rmult_le_compat_r; lra).
    assert (H2 : (- q - k) * stepSize < 1 * stepSize)
      by (apply Rmult_lt_compat_r; lra).
    assert (H3 : 0 <= k * stepSize) by (apply Rmult_le_pos; lra).
    split; [exists (- Int_part (- q))%Z; by rewrite opp_IZR|].
    split; [rewrite !Rabs_left1 by lra; lra|].
    split; [|split; [rewrite Rabs_left1 by lra; lra | exact Hbits]].
    replace (x * (- k * stepSize)) with ((- x) * (k * stepSize)) by ring.
    apply Rmult_le_pos; lra.
Qed.

Lemma quantize_toward_zero_witness :
  Rabs (quantize (1 / 128) (3 / 10)) <= Rabs (3 / 10) ∧
  Rabs (3 / 10 - quantize (1 / 128) (3 / 10)) < 1 / 128.
Proof.
  destruct (quantize_toward_zero (1 / 128) (3 / 10) ltac:(lra))
    as (_ & H1 & _ & H2 & _).
  split; [exact H1 | exact H2].
Defined.

End Shapers.

(** ** The bit crusher: sample and hold *)

Section SampleHold.
Import Effects.

Lemma mod_succ (t p : nat) :
  (1 <= p)%nat ->
  (S t mod p = if (S (t mod p) =? p)%nat then 0 else S (t mod p))%nat.
Proof.
  intros Hp. pose proof (Nat.mod_upper_bound t p ltac:(lia)) as Hlt.
  pose proof (Nat.div_mod_eq t p) as Hdm.
  destruct (Nat.eqb_spec (S (t mod p)) p) as [He|Hne]; symmetry.
  - apply (Nat.mod_unique _ _ (S (t / p))); nia.
  - apply (Nat.mod_unique _ _ (t / p)); nia.
Qed.

(** Once the hold counter is negative it never returns to zero: the held
    sample stays. *)
Lemma bitCrusherLoop_frozen (stepSize : R) (holdPeriod : Z)
    (rest : list R) :
  ∀ e : Effect,
    (holdCount e < 0)%Z ->
    (bitCrusherLoop e stepSize holdPeriod rest).2 =
    map (fun x => blend e x (quantize stepSize (sampleHold e))) rest.
Proof.
  induction rest as [|x rest IH]; intros e Hc; [done|].
  cbn [bitCrusherLoop map]. unfold bitCrusherSample.
  destruct (Z.eqb_spec (holdCount e) 0) as [|_]; [lia|].
  specialize (IH (setHold e (sampleHold e) (holdCount e - 1))
                 ltac:(cbn; lia)).
  destruct (bitCrusherLoop _ stepSize holdPeriod rest) as [e3 outs].
  cbn [snd] in *. by rewrite IH.
Qed.

(** X21.  The edge of the hold period.  A sample-rate reduction factor
    above 1 gives the hold period [int(1 / factor) = 0]; from a counter at
    0 the first sample is captured, the counter goes negative, and every
    later output is built from that first sample: the effect freezes on
    the first sample of the stream. *)
Theorem bitCrusher_freezes_above_one (e : Effect) (x0 : R)
    (rest : list R) (pm : Params.ParameterManager) :
  Type_ e = EffectBitCrusher -> holdCount e = 0%Z ->
  1 < readParam (Parameters e) "sampleRate" ->
  ∃ e', Process e (x0 :: rest) pm =
        Some (e',
              map (fun x =>
                     blend e x
                       (quantize (2 / Rpower 2 (readParam (Parameters e) "bits"))
                                 x0))
                  (x0 :: rest)) ∧
        sampleHold e' = x0 ∧ (holdCount e' < 0)%Z.
Proof.
  intros Ht Hc Hs. unfold Process. rewrite Ht. unfold processBitCrusher.
  assert (Hp : trunc (1 / readParam (Parameters e) "sampleRate") = 0%Z).
  { apply trunc_between.
    - split; [lra|]. apply Rlt_le, Rdiv_lt_0_compat; lra.
    - apply (Rmult_lt_reg_r (readParam (Parameters e) "sampleRate"));
        [lra|]. field_simplify; lra. }
  rewrite Hp. cbn [bitCrusherLoop]. unfold bitCrusherSample. rewrite Hc.
  cbn [Z.eqb].
  set (e2 := setHold (setHold e x0 0) (sampleHold (setHold e x0 0))
                     (holdCount (setHold e x0 0) - 1)).
  pose proof (bitCrusherLoop_frozen
                (2 / Rpower 2 (readParam (Parameters e) "bits")) 0 rest e2
                ltac:(cbn; lia)) as Hfr.
  assert (Hinv : ∀ l (g : Effect), (holdCount g < 0)%Z ->
            sampleHold (bitCrusherLoop g
              (2 / Rpower 2 (readParam (Parameters e) "bits")) 0 l).1
              = sampleHold g ∧
            (holdCount (bitCrusherLoop g
              (2 / Rpower 2 (readParam (Parameters e) "bits")) 0 l).1 < 0)%Z).
  { induction l as [|y l IH]; intros g Hg; [done|].
    cbn [bitCrusherLoop]. unfold bitCrusherSample.
    destruct (Z.eqb_spec (holdCount g) 0) as [|_]; [lia|].
    specialize (IH (setHold g (sampleHold g) (holdCount g - 1))
                   ltac:(cbn; lia)).
    destruct (bitCrusherLoop _ _ 0 l) as [g3 outs]. exact IH. }
  destruct (Hinv rest e2 ltac:(cbn; lia)) as [Hh Hneg].
  destruct (bitCrusherLoop e2 _ 0 rest) as [e3 outs].
  cbn [fst snd] in *. exists e3. split; [|split; [exact Hh | exact Hneg]].
  rewrite Hfr. cbn [map]. reflexivity.
Qed.

Lemma bitCrusher_freezes_above_one_witness :
  let e := setParameter (NewEffect EffectBitCrusher) "sampleRate" 2 in
  ∃ e', Process e [1; 0; -1] Params.NewParameterManager =
        Some (e', map (fun x => blend e x (quantize (2 / Rpower 2 8) 1))
                      [1; 0; -1]) ∧
        sampleHold e' = 1.
Proof.
  intros e.
  destruct (bitCrusher_freezes_above_one e 1 [0; -1]
              Params.NewParameterManager eq_refl eq_refl)
    as (e' & Hp & Hh & _).
  - replace (readParam (Parameters e) "sampleRate") with 2 by reflexivity.
    lra.
  - exists e'. split; [exact Hp | exact Hh].
Defined.

(** The loop on the samples from position [length pre] on, for a hold
    period [p] of at least one: the counter and the held sample are those
    of the block the position falls in. *)
Lemma bitCrusherLoop_blocks (stepSize m : R) (p : nat) (rest : list R) :
  (1 <= p)%nat ->
  ∀ (pre : list R) (e : Effect),
    Mix e = m ->
    holdCount e =
      Z.of_nat (if (length pre mod p =? 0)%nat then 0
                else p - length pre mod p) ->
    ((length pre mod p)%nat ≠ O ->
     sampleHold e = nth (length pre - length pre mod p) (pre ++ rest) 0) ->
    (bitCrusherLoop e stepSize (Z.of_nat p) rest).2 =
    map (fun t =>
           nth t (pre ++ rest) 0 * (1 - m)
           + quantize stepSize (nth (t - t mod p) (pre ++ rest) 0) * m)
        (seq (length pre) (length rest)).
Proof.
  intros Hp. induction rest as [|x rest IH]; intros pre e Hm Hc Hh; [done|].
  cbn [bitCrusherLoop length seq map]. unfold bitCrusherSample.
  set (t := length pre) in *.
  pose proof (Nat.mod_upper_bound t p ltac:(lia)) as Hlt.
  pose proof (mod_succ t p Hp) as Hsucc.
  assert (Hx : nth t (pre ++ x :: rest) 0 = x) by apply nth_middle.
  assert (Hall : (pre ++ [x]) ++ rest = pre ++ x :: rest)
    by (by rewrite <- app_assoc).
  assert (Hlen : length (pre ++ [x]) = S t)
    by (rewrite length_app; cbn; lia).
  set (e1 := if (holdCount e =? 0)%Z then setHold e x (Z.of_nat p) else e).
  set (e2 := setHold e1 (sampleHold e1) (holdCount e1 - 1)).
  assert (Hheld : sampleHold e2 = nth (t - t mod p) (pre ++ x :: rest) 0).
  { unfold e2, e1. destruct (Nat.eqb_spec (t mod p) 0) as [E|E].
    - rewrite Hc, E. simpl. by rewrite Nat.sub_0_r, Hx.
    - destruct (Z.eqb_spec (holdCount e) 0) as [Hz|_]; [lia|].
      cbn [setHold sampleHold]. by apply Hh. }
  assert (Hcount : holdCount e2 =
                   Z.of_nat (if (S t mod p =? 0)%nat then 0
                             else p - S t mod p)).
  { unfold e2, e1. rewrite Hsucc.
    destruct (Nat.eqb_spec (t mod p) 0) as [E|E].
    - rewrite Hc, E. destruct (Nat.eqb_spec 1 p); simpl; lia.
    - destruct (Z.eqb_spec (holdCount e) 0) as [Hz|_]; [lia|].
      cbn [setHold holdCount]. rewrite Hc.
      destruct (Nat.eqb_spec (t mod p) 0) as [|_]; [lia|].
      destruct (Nat.eqb_spec (S (t mod p)) p) as [Hsp|Hsp].
      + change (0 =? 0)%nat with true. cbv iota. lia.
      + destruct (Nat.eqb_spec (S (t mod p)) 0) as [|_]; lia. }
  assert (Hm2 : Mix e2 = m)
    by (unfold e2, e1; destruct (holdCount e =? 0)%Z; exact Hm).
  specialize (IH (pre ++ [x]) e2 Hm2). rewrite Hlen, Hall in IH.
  specialize (IH Hcount).
  assert (Hh2 : (S t mod p)%nat ≠ O ->
                sampleHold e2 = nth (S t - S t mod p) (pre ++ x :: rest) 0).
  { intros Hne. rewrite Hheld. f_equal. rewrite Hsucc in *.
    destruct (Nat.eqb_spec (S (t mod p)) p); lia. }
  specialize (IH Hh2).
  destruct (bitCrusherLoop e2 stepSize (Z.of_nat p) rest) as [e3 outs].
  cbn [snd] in *. rewrite IH. f_equal.
  unfold blend. by rewrite Hm2, Hheld, Hx.
Qed.

(** X22.  Sample and hold.  With a hold period [p = int(1 / factor)] of
    at least one and the counter at 0, the output at position [t] blends
    the input at [t] with the quantised input at the start of its block,
    position [t - t mod p]: the held value changes every [p] samples and
    only then. *)
Theorem bitCrusher_holds_blocks (e : Effect) (p : nat) (buffer : list R)
    (pm : Params.ParameterManager) :
  Type_ e = EffectBitCrusher -> holdCount e = 0%Z -> (1 <= p)%nat ->
  trunc (1 / readParam (Parameters e) "sampleRate") = Z.of_nat p ->
  ∃ e', Process e buffer pm =
        Some (e',
              map (fun t =>
                     blend e (nth t buffer 0)
                       (quantize (2 / Rpower 2 (readParam (Parameters e) "bits"))
                                 (nth (t - t mod p) buffer 0)))
                  (seq 0 (length buffer))).
Proof.
  intros Ht Hc Hp Htr. unfold Process. rewrite Ht. unfold processBitCrusher.
  rewrite Htr.
  pose proof (bitCrusherLoop_blocks
                (2 / Rpower 2 (readParam (Parameters e) "bits")) (Mix e)
                p buffer Hp [] e eq_refl) as H.
  cbn [length app] in H. rewrite Nat.Div0.mod_0_l in H.
  specialize (H Hc ltac:(done)).
  destruct (bitCrusherLoop e _ (Z.of_nat p) buffer) as [e' out].
  cbn [snd] in H. exists e'. by rewrite H.
Qed.

Lemma bitCrusher_holds_blocks_witness :
  ∃ e', Process (NewEffect EffectBitCrusher) [1; 2; 3; 4]
                Params.NewParameterManager =
        Some (e',
              map (fun t =>
                     blend (NewEffect EffectBitCrusher) (nth t [1; 2; 3; 4] 0)
                       (quantize (2 / Rpower 2 8)
                                 (nth (t - t mod 2) [1; 2; 3; 4] 0)))
                  (seq 0 4)).
Proof.
  apply (bitCrusher_holds_blocks (NewEffect EffectBitCrusher) 2 [1; 2; 3; 4]
           Params.NewParameterManager eq_refl eq_refl ltac:(lia)).
  replace (readParam (Parameters (NewEffect EffectBitCrusher)) "sampleRate")
    with (1 / 2) by reflexivity.
  replace (1 / (1 / 2)) with (IZR 2) by lra. apply trunc_IZR.
Defined.

End SampleHold.

(** ** The engine: the audio callback and the life cycle *)

Section CallbackFacts.
Import Engine.

Lemma generateLoop_frame (buffer : list R) (o : Oscillators.Oscillator)
    (randState : Z) :
  length (Oscillators.generateLoop o randState buffer).1.2 = length buffer ∧
  Oscillators.Frequency (Oscillators.generateLoop o randState buffer).1.1
    = Oscillators.Frequency o ∧
  Oscillators.phaseInc (Oscillators.generateLoop o randState buffer).1.1
    = Oscillators.phaseInc o.
Proof.
  revert o randState.
  induction buffer as [|x rest IH]; intros o rs; [done|].
  cbn [Oscillators.generateLoop]. unfold Oscillators.generateSample.
  destruct (Oscillators.waveform o rs) as [sample rs1].
  specialize (IH (Oscillators.advancePhase o) rs1).
  destruct (Oscillators.generateLoop (Oscillators.advancePhase o) rs1 rest)
    as [[o2 outs] rs2].
  cbn [fst snd length] in *. destruct IH as (-> & -> & ->). done.
Qed.

Lemma generateAll_frame (oscs : list Oscillators.Oscillator)
    (pm : Params.ParameterManager) :
  ∀ (randState : Z) (mixBuffer : list R),
    length (generateAll oscs pm randState mixBuffer).1.2 = length mixBuffer ∧
    length (generateAll oscs pm randState mixBuffer).1.1 = length oscs ∧
    ∀ v, Params.params pm !! "osc1_frequency" = Some v ->
         Forall (Oscillators.tunedTo v) (generateAll oscs pm randState mixBuffer).1.1.
Proof.
  induction oscs as [|osc rest IH]; intros rs mix.
  - cbn. split; [done|]. split; [done|]. intros v _. constructor.
  - cbn [generateAll]. unfold Oscillators.Generate.
    destruct (generateLoop_frame (replicate (length mix) 0)
                (Oscillators.refreshFrequency osc pm) rs) as (Hlen & Hf & Hi).
    destruct (Oscillators.generateLoop _ rs (replicate (length mix) 0))
      as [[osc' temp] rs1].
    cbn [fst snd] in *.
    specialize (IH rs1 (zip_with Rplus mix temp)).
    destruct (generateAll rest pm rs1 (zip_with Rplus mix temp))
      as [[rest' mix'] rs2].
    cbn [fst snd length] in *. destruct IH as (Hl1 & Hl2 & Hall).
    split; [rewrite Hl1, length_zip_with, Hlen, length_replicate; lia|].
    split; [by rewrite Hl2|].
    intros v Hv. constructor; [|by apply Hall].
    unfold Oscillators.tunedTo. rewrite Hf, Hi.
    unfold Oscillators.refreshFrequency, Params.Get. rewrite Hv. done.
Qed.

Lemma filterAll_frame (fs : list Filters.Filter)
    (pm : Params.ParameterManager) :
  ∀ mixBuffer : list R,
    length (filterAll fs pm mixBuffer).2 = length mixBuffer ∧
    length (filterAll fs pm mixBuffer).1 = length fs ∧
    (fs ≠ [] ->
     Forall (fun y => -1 <= y <= 1) (filterAll fs pm mixBuffer).2).
Proof.
  induction fs as [|f rest IH]; intros mix; [done|].
  cbn [filterAll].
  destruct (Process_output_clipped f mix pm) as [Hlen Hclip].
  destruct (Filters.Process f mix pm) as [f' mix1]. cbn [snd] in *.
  specialize (IH mix1).
  destruct (filterAll rest pm mix1) as [rest' mix2] eqn:Hrest.
  cbn [fst snd length] in *. destruct IH as (Hl1 & Hl2 & Hall).
  split; [congruence|]. split; [by rewrite Hl2|]. intros _.
  destruct rest as [|g rest0]; [|by apply Hall].
  cbn in Hrest. by injection Hrest as <- <-.
Qed.

Lemma effectAll_total (es : list Effects.Effect)
    (pm : Params.ParameterManager) :
  ∀ mixBuffer : list R,
    Forall Effects.wellFormed es ->
    ∃ es' mix', effectAll es pm mixBuffer = Some (es', mix') ∧
                length mix' = length mixBuffer ∧
                length es' = length es ∧
                Forall Effects.wellFormed es'.
Proof.
  induction es as [|e rest IH]; intros mix Hwf.
  - exists [], mix. by repeat split.
  - inversion Hwf as [|? ? He Hrest]; subst.
    destruct (Process_never_panics e mix pm He)
      as (e' & mix1 & Hp & Hlen & Hwf' & _).
    destruct (IH mix1 Hrest) as (rest' & mix2 & Hr & Hlen2 & Hl & Hwf2).
    exists (e' :: rest'), mix2. cbn [effectAll]. rewrite Hp.
    cbn [mbind option_bind]. rewrite Hr. cbn [mbind option_bind].
    split; [done|]. split; [congruence|]. split; [cbn; by rewrite Hl|].
    by constructor.
Qed.

Lemma Forall_map_const {A B : Type} (P : B -> Prop) (y : B) (l : list A) :
  P y -> Forall P (map (fun _ => y) l).
Proof. intros Hy. induction l; constructor; auto. Qed.

Lemma copySlice_same_length (dst src : list R) :
  length dst = length src -> copySlice dst src = src.
Proof.
  intros H. unfold copySlice.
  rewrite H, firstn_all, drop_ge by lia. apply app_nil_r.
Qed.

(** X23.  [Stop] after [Start], whichever step of [Start] failed or
    none: on a driver that held nothing before, the engine is stopped, the
    driver again holds no initialisation and no stream, and the callback
    only writes zeros, leaving the chains, the store and the noise
    generator untouched. *)
Theorem Stop_after_Start_cleans_up (ae : AudioEngine) (w : Driver)
    (sc : Script) (out : list (list R)) (randState : Z) :
  initCount w = O -> openStreams w = [] -> startedStreams w = [] ->
  let ae2 := (Stop (Start ae w sc).1.2 (Start ae w sc).2).1 in
  let w2 := (Stop (Start ae w sc).1.2 (Start ae w sc).2).2 in
  IsRunning ae2 = false ∧
  initCount w2 = O ∧ openStreams w2 = [] ∧ startedStreams w2 = [] ∧
  processAudio ae2 out randState =
    Some (ae2, map (fun ch => replicate (length ch) 0) out, randState).
Proof.
  destruct w as [ic nh os ss]. cbn [initCount openStreams startedStreams].
  intros -> -> ->. unfold Start.
  destruct (initErr sc); [|destruct (openErr sc); [|destruct (startErr sc)]];
    cbn; repeat split; try reflexivity;
    destruct (stream ae); reflexivity.
Qed.

Lemma Stop_after_Start_cleans_up_witness :
  let sc := mkScript None None (Some "device unavailable") in
  let ae2 := (Stop (Start NewAudioEngine idleDriver sc).1.2
                   (Start NewAudioEngine idleDriver sc).2).1 in
  let w2 := (Stop (Start NewAudioEngine idleDriver sc).1.2
                  (Start NewAudioEngine idleDriver sc).2).2 in
  IsRunning ae2 = false ∧ initCount w2 = O ∧ openStreams w2 = [].
Proof.
  intros sc ae2 w2.
  destruct (Stop_after_Start_cleans_up NewAudioEngine idleDriver sc []
              Oscillators.randState0 eq_refl eq_refl eq_refl)
    as (H1 & H2 & H3 & _).
  split; [exact H1|]. split; [exact H2 | exact H3].
Defined.

Lemma processAudio_running (ae : AudioEngine) (ch0 : list R)
    (chs : list (list R)) (randState : Z) :
  IsRunning ae = true ->
  Forall Effects.wellFormed (effects ae) ->
  Forall (fun ch => length ch = length ch0) chs ->
  ∃ ae' mix rs',
    processAudio ae (ch0 :: chs) randState =
      Some (ae', map (fun _ => mix) (ch0 :: chs), rs') ∧
    length mix = length ch0 ∧
    params ae' = params ae ∧ isRunning ae' = isRunning ae ∧
    stream ae' = stream ae ∧
    length (oscillators ae') = length (oscillators ae) ∧
    length (filters ae') = length (filters ae) ∧
    length (effects ae') = length (effects ae) ∧
    Forall Effects.wellFormed (effects ae') ∧
    (effects ae = [] -> filters ae ≠ [] ->
     Forall (fun y => -1 <= y <= 1) mix) ∧
    (∀ v, Params.params (params ae) !! "osc1_frequency" = Some v ->
          Forall (Oscillators.tunedTo v) (oscillators ae')).
Proof.
  intros Hrun Hwf Hchs. unfold processAudio. rewrite Hrun. cbn [negb].
  destruct (generateAll_frame (oscillators ae) (params ae) randState
              (replicate (length ch0) 0)) as (Hg1 & Hg2 & Hg3).
  destruct (generateAll (oscillators ae) (params ae) randState
              (replicate (length ch0) 0)) as [[oscs' mix1] rs'].
  cbn [fst snd] in *. rewrite length_replicate in Hg1.
  destruct (filterAll_frame (filters ae) (params ae) mix1)
    as (Hf1 & Hf2 & Hf3).
  destruct (filterAll (filters ae) (params ae) mix1) as [fs' mix2].
  cbn [fst snd] in *.
  destruct (effectAll_total (effects ae) (params ae) mix2 Hwf)
    as (es' & mix3 & He & He1 & He2 & He3).
  assert (Hempty : effects ae = [] -> mix3 = mix2).
  { intros E. rewrite E in He. cbn in He. by injection He as <- <-. }
  rewrite He. cbn [mbind option_bind].
  exists (setChains ae oscs' fs' es'), mix3, rs'.
  assert (Hlen3 : length mix3 = length ch0) by congruence.
  split.
  - do 3 f_equal. cbn [map]. f_equal.
    + by apply copySlice_same_length.
    + induction Hchs as [|ch chs' Hch _ IH]; [done|]. cbn [map].
      f_equal; [|exact IH]. apply copySlice_same_length. congruence.
  - cbn [setChains params isRunning stream oscillators filters effects].
    repeat split; try done.
    intros E Hne. rewrite (Hempty E). by apply Hf3.
Qed.


(** The engine [Start] leaves running when nothing fails. *)
Lemma started_engine_running :
  IsRunning (Start NewAudioEngine idleDriver allSucceed).1.2 = true ∧
  effects (Start NewAudioEngine idleDriver allSucceed).1.2 = [] ∧
  filters (Start NewAudioEngine idleDriver allSucceed).1.2 ≠ [].
Proof. by repeat split. Qed.






(** X27.  Every oscillator of the chain reads the one key
    [osc1_frequency]: after a running callback with that key in the store
    all oscillators carry the stored frequency and its increment,
    whatever frequencies they were built with. *)
Theorem callback_tunes_all_oscillators (ae ae' : AudioEngine)
    (ch0 : list R) (chs out' : list (list R)) (randState rs' : Z) (v : R) :
  IsRunning ae = true ->
  Forall Effects.wellFormed (effects ae) ->
  Forall (fun ch => length ch = length ch0) chs ->
  Params.params (params ae) !! "osc1_frequency" = Some v ->
  processAudio ae (ch0 :: chs) randState = Some (ae', out', rs') ->
  Forall (Oscillators.tunedTo v) (oscillators ae') ∧
  length (oscillators ae') = length (oscillators ae).
Proof.
  intros Hrun Hwf Hchs Hv Hp.
  destruct (processAudio_running ae ch0 chs randState Hrun Hwf Hchs)
    as (ae2 & mix & rs2 & Hp2 & _ & _ & _ & _ & Hlen & _ & _ & _ & _ & Ht).
  rewrite Hp in Hp2. injection Hp2 as -> -> ->.
  split; [by apply Ht | exact Hlen].
Qed.

Lemma callback_tunes_all_oscillators_witness :
  let ae := mkEngine (Some O) 1
              [Oscillators.NewOscillator Oscillators.OscSine 440 (3 / 10);
               Oscillators.NewOscillator Oscillators.OscSaw 220 (1 / 10)]
              [] []
              (Params.Set_ "osc1_frequency" 660 Params.NewParameterManager) in
  ∃ ae' out' rs',
    processAudio ae [[0; 0]] Oscillators.randState0 = Some (ae', out', rs') ∧
    Forall (Oscillators.tunedTo 660) (oscillators ae').
Proof.
  intros ae.
  assert (Hrun : IsRunning ae = true) by reflexivity.
  assert (Hwf : Forall Effects.wellFormed (effects ae)) by constructor.
  assert (Hchs : Forall (fun ch : list R => length ch = length [0; 0]) [])
    by constructor.
  assert (Hv : Params.params (params ae) !! "osc1_frequency" = Some 660)
    by reflexivity.
  destruct (processAudio_running ae [0; 0] [] Oscillators.randState0
              Hrun Hwf Hchs) as (ae' & mix & rs' & Hp & _).
  exists ae', (map (fun _ => mix) [[0; 0]]), rs'. split; [exact Hp|].
  exact (proj1 (callback_tunes_all_oscillators ae ae' [0; 0] [] _
                  Oscillators.randState0 rs' 660 Hrun Hwf Hchs Hv Hp)).
Defined.

End CallbackFacts.

(** ** The chorus: LFO phase and the bypass regime *)

Section ChorusRegimes.
Import Effects.

Lemma trunc_ge (x : R) (z : Z) : (0 <= z)%Z -> IZR z <= x -> (z <= trunc x)%Z.
Proof.
  intros Hz Hx. apply IZR_le in Hz. unfold trunc.
  destruct (Rle_dec 0 x) as [_|Hn]; [|lra].
  destruct (base_Int_part x) as [_ Hhi].
  assert (IZR (z - 1) < IZR (Int_part x)) by (rewrite minus_IZR; lra).
  assert (z - 1 < Int_part x)%Z by (by apply lt_IZR). lia.
Qed.

(** One iteration, whichever branch it takes: the LFO has advanced and
    only the line and the index may differ besides. *)
Lemma chorusSample_shape (e : Effect) (x : R) :
  indexInside e ->
  ∃ line idx y,
    chorusSample e x = Some (setDelayState (lfoStep e).2 line idx, y) ∧
    length line = length (delayLine e) ∧ (0 <= idx < len line)%Z.
Proof.
  intros Hidx. unfold indexInside in Hidx.
  set (ds := modulatedDelay e (sin (lfoPhase e)
                               * readParam (Parameters e) "depth")).
  destruct (Z_lt_le_dec (trunc ds) (len (delayLine e) - 1)) as [Hlt|Hge].
  - destruct (chorusRead_total (delayLine e) (delayIndex e) ds Hidx Hlt)
      as [delayed Hread].
    rewrite (chorusSample_process e x delayed Hlt Hidx Hread).
    eexists _, _, _. split; [reflexivity|].
    rewrite length_insert. split; [done|]. unfold len.
    rewrite length_insert. apply Z.rem_bound_pos; unfold len in *; lia.
  - rewrite (chorusSample_bypass e x Hge).
    exists (delayLine e), (delayIndex e), x. split; [|by split].
    do 2 f_equal.
Qed.

Lemma lfoStep_canonical (e : Effect) :
  lfoCanonical e -> 0 <= readParam (Parameters e) "rate" < 44100 ->
  lfoCanonical (lfoStep e).2.
Proof.
  intros [H0 H1] Hr. assert (Hpi := PI_RGT_0).
  unfold lfoCanonical, lfoStep, lfoIncrementOf, SampleRate.
  cbn [snd setLfoPhase lfoPhase].
  set (inc := 2 * PI * readParam (Parameters e) "rate" / 44100).
  assert (Hinc : 0 <= inc < 2 * PI).
  { unfold inc, Rdiv. split; [apply Rmult_le_pos; [nra | lra]|].
    apply (Rmult_lt_reg_r 44100); [lra|]. field_simplify. nra. }
  destruct (Rge_dec (lfoPhase e + inc) (2 * PI)); lra.
Qed.

Lemma chorusLoop_lfo (buffer : list R) :
  ∀ e : Effect,
    indexInside e -> lfoCanonical e ->
    0 <= readParam (Parameters e) "rate" < 44100 ->
    ∃ e' out, chorusLoop e buffer = Some (e', out) ∧ lfoCanonical e'.
Proof.
  induction buffer as [|x rest IH]; intros e Hidx Hl Hr.
  - by exists e, [].
  - destruct (chorusSample_shape e x Hidx)
      as (line & idx & y & Hs & Hlen & Hi).
    destruct (IH (setDelayState (lfoStep e).2 line idx)) as (e' & outs & Hl' & Hc).
    + exact Hi.
    + exact (lfoStep_canonical e Hl Hr).
    + exact Hr.
    + exists e', (y :: outs). cbn [chorusLoop]. rewrite Hs.
      cbn [mbind option_bind]. rewrite Hl'. by cbn [mbind option_bind].
Qed.


Lemma NewChorus_facts :
  indexInside (NewEffect EffectChorus) ∧
  0 <= lfoPhase (NewEffect EffectChorus) < 2 * PI ∧
  0 <= readParam (Parameters (NewEffect EffectChorus)) "rate" < 44100.
Proof.
  assert (Hpi := PI_RGT_0).
  split; [exact (NewEffect_wellFormed EffectChorus)|].
  split; [cbn [NewEffect lfoPhase setParameter setDelayState]; lra|].
  replace (readParam (Parameters (NewEffect EffectChorus)) "rate")
    with (1 / 2) by reflexivity.
  lra.
Qed.


Lemma chorusLoop_bypassed (buffer : list R) :
  ∀ e : Effect,
    0 <= readParam (Parameters e) "delay" ->
    IZR (len (delayLine e) - 1)
      <= readParam (Parameters e) "delay"
         * (1 - Rabs (readParam (Parameters e) "depth")) * IZR SampleRate ->
    (0 <= len (delayLine e) - 1)%Z ->
    ∃ e', chorusLoop e buffer = Some (e', buffer) ∧
          delayLine e' = delayLine e ∧ delayIndex e' = delayIndex e.
Proof.
  induction buffer as [|x rest IH]; intros e Hb Hcap HL.
  - by exists e.
  - assert (Hge : (len (delayLine e) - 1 <=
                   trunc (modulatedDelay e
                            (sin (lfoPhase e)
                             * readParam (Parameters e) "depth")))%Z).
    { apply trunc_ge; [exact HL|]. eapply Rle_trans; [exact Hcap|].
      unfold modulatedDelay, SampleRate in *.
      set (b := readParam (Parameters e) "delay") in *.
      set (d := readParam (Parameters e) "depth") in *.
      pose proof (SIN_bound (lfoPhase e)) as Hs.
      assert (Hlfo : - Rabs d <= sin (lfoPhase e) * d).
      { assert (Rabs (sin (lfoPhase e) * d) <= Rabs d).
        { rewrite Rabs_mult. pose proof (Rabs_pos d).
          assert (Rabs (sin (lfoPhase e)) <= 1) by (apply Rabs_le; lra).
          nra. }
        pose proof (Rle_abs (- (sin (lfoPhase e) * d))) as Hab.
        rewrite Rabs_Ropp in Hab. lra. }
      apply Rmult_le_compat_r; [lra|]. nra. }
    destruct (IH (lfoStep e).2 Hb Hcap HL) as (e' & Hl & Hline & Hi).
    exists e'. cbn [chorusLoop]. rewrite (chorusSample_bypass e x Hge).
    cbn [mbind option_bind]. rewrite Hl. cbn [mbind option_bind].
    split; [done|]. by split.
Qed.



End ChorusRegimes.
